(** * terminus: the [Road] model (terminus/models/road.py)

    A shallow embedding of the class [Road] and a verification of its
    node chain operations: construction from control points, positional
    accessors, distances, width, node replacement, trimming of redundant
    nodes, reversal and equality.

    road.py is Python 2 code ([reduce] is used as a built-in, [len] is
    applied to the result of [map]): [map] and [zip] return lists, and
    they are modelled as such.

    The classes road.py imports ([Point], [RoadSimpleNode],
    [RoadIntersectionNode], [Lane], [CityModel]) live in other files; what
    [Road] uses of them is taken as an interface (the classes
    [Number], [PointOps] and [LaneOps] below). *)

From stdpp Require Import base option list gmap strings.
From Stdlib Require Import ZArith Lia.

Local Open Scope Z_scope.

(** ** Exceptions and results *)

(** [IndexError], [ValueError] and [TypeError] are the built-in exceptions
    the statements of road.py can raise. [EmptyRoadError], [NoLanesError]
    and [NodeNotFoundError] are the error classes of the design's error
    taxonomy; road.py neither defines nor raises them, they are here so
    that a statement about them can be written down. *)
Inductive exn : Type :=
  | IndexError
  | ValueError
  | TypeError
  | EmptyRoadError
  | NoLanesError
  | NodeNotFoundError.

#[global] Instance exn_eq_dec : EqDecision exn.
Proof. solve_decision. Defined.

(** The outcome of evaluating a Python expression: a value or a raised
    exception. *)
Inductive result (A : Type) : Type :=
  | Ok (a : A)
  | Raise (e : exn).
Arguments Ok {A} a.
Arguments Raise {A} e.

#[global] Instance result_ret : MRet result := @Ok.
#[global] Instance result_bind : MBind result := λ A B f m,
  match m with
  | Ok a => f a
  | Raise e => Raise e
  end.

Definition returns {A} (m : result A) : Prop := ∃ a, m = Ok a.

(** ** Python lists *)

Module PyList.

(** [l[i]] for an integer [i]: a negative index counts from the end, an
    index outside the list raises [IndexError]. *)
Definition normalize {A} (l : list A) (i : Z) : Z :=
  if i <? 0 then i + Z.of_nat (length l) else i.

Definition getitem {A} (l : list A) (i : Z) : result A :=
  let j := normalize l i in
  if (j <? 0) || (Z.of_nat (length l) <=? j) then Raise IndexError
  else match l !! Z.to_nat j with
       | Some x => Ok x
       | None => Raise IndexError
       end.

(** [l[i] = x], same index rules. *)
Definition setitem {A} (l : list A) (i : Z) (x : A) : result (list A) :=
  let j := normalize l i in
  if (j <? 0) || (Z.of_nat (length l) <=? j) then Raise IndexError
  else Ok (<[Z.to_nat j := x]> l).

(** An index that is an arbitrary object: here [None] or an integer. A
    list indexed by [None] raises [TypeError]. *)
Definition getitem_obj {A} (l : list A) (i : option Z) : result A :=
  match i with
  | None => Raise TypeError
  | Some i => getitem l i
  end.

Definition setitem_obj {A} (l : list A) (i : option Z) (x : A)
  : result (list A) :=
  match i with
  | None => Raise TypeError
  | Some i => setitem l i x
  end.

(** [range(lo, hi)] (a list in Python 2). *)
Definition range (lo hi : Z) : list Z :=
  map (λ k : nat, lo + Z.of_nat k) (seq 0 (Z.to_nat (hi - lo))).

(** [next((index for index, x in enumerate(l) if P x), None)]. *)
Definition first_index {A} (P : A → Prop) `{!∀ x, Decision (P x)}
    (l : list A) : option Z :=
  (λ ix : nat * A, Z.of_nat ix.1) <$> list_find P l.

End PyList.

(** ** Interfaces of the imported classes *)

(** Python numbers as road.py uses them: [<] (and [>], its converse),
    [==], [abs], [+] and the literal [0.0]. *)
Class Number (Num : Type) := {
  num_lt : Num → Num → bool;
  num_eq : Num → Num → bool;
  num_abs : Num → Num;
  num_add : Num → Num → Num;
  float_zero : Num
}.

Definition num_gt `{Number Num} (a b : Num) : bool := num_lt b a.

(** geometry.point.Point: [p - q], [u.angle(v)], [p.distance_to(q)].
    Points are dictionary keys and are compared with [==]; both are taken
    to be equality of values, so [Point] has decidable equality and is
    countable. Points double as vectors, as in the source. *)
Class PointOps (Point Num : Type) := {
  point_sub : Point → Point → Point;
  point_angle : Point → Point → Num;
  distance_to : Point → Point → Num
}.

(** lane.Lane: only [external_offset()] is used by [Road]. *)
Class LaneOps (Lane Num : Type) := {
  external_offset : Lane → Num
}.

(** [min(l)] and [max(l)] on a list: [ValueError] on an empty list;
    otherwise the first element is the candidate and a later item
    replaces it when it compares [<] (for [min]) or [>] (for [max]) with
    the candidate. [pick] is one step of that scan. *)
Definition pick {Num} (better : Num → Num → bool) (candidate item : Num) : Num :=
  if better item candidate then item else candidate.

Definition py_min `{Number Num} (l : list Num) : result Num :=
  match l with
  | [] => Raise ValueError
  | x :: xs => Ok (fold_left (pick num_lt) xs x)
  end.

Definition py_max `{Number Num} (l : list Num) : result Num :=
  match l with
  | [] => Raise ValueError
  | x :: xs => Ok (fold_left (pick num_gt) xs x)
  end.

(** [<] is irreflexive and transitive (it is on integers, and on floats,
    not-a-number included). *)
Definition strict_order_lt (Num : Type) `{Number Num} : Prop :=
  (∀ a : Num, num_lt a a = false) ∧
  (∀ a b c : Num, num_lt a b = true → num_lt b c = true → num_lt a c = true).

(** ** Data model *)

(** A node object. [node_id] is the identity of the object ([is]), so two
    nodes built from the same point are two objects. [RoadSimpleNode] and
    [RoadIntersectionNode] differ in what [is_intersection()] answers. *)
Inductive NodeKind : Type := SimpleNode | IntersectionNode.

#[global] Instance NodeKind_eq_dec : EqDecision NodeKind.
Proof. solve_decision. Defined.

Record RoadNode (Point : Type) : Type := mkNode {
  node_id : nat;
  node_kind : NodeKind;
  center : Point
}.
Arguments mkNode {Point} _ _ _.
Arguments node_id {Point} _.
Arguments node_kind {Point} _.
Arguments center {Point} _.

Definition is_intersection {Point} (node : RoadNode Point) : bool :=
  match node_kind node with
  | IntersectionNode => true
  | SimpleNode => false
  end.

(** The object of class [Road] (or of a subclass: [road_class] is
    [self.__class__], by name). The [name] of [CityModel] plays no part in
    what follows and is left out. *)
Record Road (Point Lane : Type) `{Countable Point} : Type := mkRoad {
  road_class : string;
  _nodes : list (RoadNode Point);
  _point_to_node : gmap Point (RoadNode Point);
  _lanes : list Lane
}.
Arguments mkRoad {Point Lane _ _} _ _ _ _.
Arguments road_class {Point Lane _ _} _.
Arguments _nodes {Point Lane _ _} _.
Arguments _point_to_node {Point Lane _ _} _.
Arguments _lanes {Point Lane _ _} _.

(** The calls a road makes on its nodes, with itself as the argument:
    [node.added_to(self)] and [node.removed_from(self)]. *)
Inductive Call (Point : Type) : Type :=
  | AddedTo (node : RoadNode Point)
  | RemovedFrom (node : RoadNode Point).
Arguments AddedTo {Point} node.
Arguments RemovedFrom {Point} node.

(** What a method of a road can change besides the road: the supply of
    object identities and the log of the calls made on nodes, oldest
    first. *)
Record Env (Point : Type) : Type := mkEnv {
  next_id : nat;
  calls : list (Call Point)
}.
Arguments mkEnv {Point} _ _.
Arguments next_id {Point} _.
Arguments calls {Point} _.

Record World (Point Lane : Type) `{Countable Point} : Type := mkWorld {
  self : Road Point Lane;
  env : Env Point
}.
Arguments mkWorld {Point Lane _ _} _ _.
Arguments self {Point Lane _ _} _.
Arguments env {Point Lane _ _} _.

Section RoadModel.
Context {Point Num Lane : Type} `{Countable Point}.
Context `{!Number Num} `{!PointOps Point Num} `{!LaneOps Lane Num}.

(** RoadNode.__eq__, used when two node lists are compared. *)
Variable node_eq : RoadNode Point → RoadNode Point → bool.

Local Abbreviation Node := (RoadNode Point).
Local Abbreviation RoadT := (Road Point Lane).
Local Abbreviation WorldT := (World Point Lane).

(** *** The monad of methods: state and exceptions

    A method runs on a world and yields a value or an exception together
    with the world it leaves; what was changed before an exception stays
    changed. *)
Definition M (A : Type) : Type := WorldT → result A * WorldT.

Definition retM {A} (a : A) : M A := λ w, (Ok a, w).
Definition bindM {A B} (m : M A) (f : A → M B) : M B := λ w,
  match m w with
  | (Ok a, w') => f a w'
  | (Raise e, w') => (Raise e, w')
  end.
Definition liftR {A} (m : result A) : M A := λ w, (m, w).
Definition get_self : M RoadT := λ w, (Ok (self w), w).
Definition put_self (r : RoadT) : M unit := λ w, (Ok tt, mkWorld r (env w)).

Notation "x ←ₘ m ; k" := (bindM m (λ x, k))
  (at level 20, m at level 100, k at level 200, only parsing).
Notation "m ;;ₘ k" := (bindM m (λ _, k))
  (at level 100, k at level 200, right associativity, only parsing).

(** [for x in l: body(x)] *)
Fixpoint for_each {A} (l : list A) (body : A → M unit) : M unit :=
  match l with
  | [] => retM tt
  | x :: l' => body x ;;ₘ for_each l' body
  end.

(** A loop that only updates local variables [s] and may raise. *)
Fixpoint fold_result {A S} (body : S → A → result S) (s : S) (l : list A)
  : result S :=
  match l with
  | [] => Ok s
  | x :: l' => s' ← body s x; fold_result body s' l'
  end.

(** *** Field updates *)
Definition set_nodes (nodes : list Node) : M unit :=
  r ←ₘ get_self;
  put_self (mkRoad (road_class r) nodes (_point_to_node r) (_lanes r)).
Definition set_point_to_node (m : gmap Point Node) : M unit :=
  r ←ₘ get_self;
  put_self (mkRoad (road_class r) (_nodes r) m (_lanes r)).

(** *** Calls on nodes *)

(** [RoadSimpleNode(point)]: a new object. *)
Definition RoadSimpleNode (point : Point) : M Node := λ w,
  (Ok (mkNode (next_id (env w)) SimpleNode point),
   mkWorld (self w) (mkEnv (S (next_id (env w))) (calls (env w)))).

Definition log_call (c : Call Point) : M unit := λ w,
  (Ok tt, mkWorld (self w) (mkEnv (next_id (env w)) (calls (env w) ++ [c]))).

(** [node.added_to(self)] and [node.removed_from(self)] *)
Definition added_to (node : Node) : M unit := log_call (AddedTo node).
Definition removed_from (node : Node) : M unit := log_call (RemovedFrom node).

(** *** Construction *)

(** [Road.__init__] *)
Definition Road_init (cls : string) : RoadT := mkRoad cls [] ∅ [].

Definition _add_node (node : Node) : M unit :=
  r ←ₘ get_self;
  set_nodes (_nodes r ++ [node]) ;;ₘ
  added_to node.

Definition add_control_point (point : Point) : M unit :=
  node ←ₘ RoadSimpleNode point;
  _add_node node ;;ₘ
  r ←ₘ get_self;
  set_point_to_node (<[point := node]> (_point_to_node r)).

Definition add_control_points (points : list Point) : M unit :=
  for_each points add_control_point.

(** The class methods build [road = cls()] and return it; they run in the
    environment alone. *)
Definition from_nodes (cls : string) (array_of_nodes : list Node)
    (e : Env Point) : result RoadT * Env Point :=
  let '(res, w) := for_each array_of_nodes _add_node (mkWorld (Road_init cls) e) in
  (res ≫= λ _, Ok (self w), env w).

Definition from_control_points (cls : string) (array_of_points : list Point)
    (e : Env Point) : result RoadT * Env Point :=
  let '(res, w) :=
    for_each array_of_points add_control_point (mkWorld (Road_init cls) e) in
  (res ≫= λ _, Ok (self w), env w).

(** *** Queries *)

Definition lanes (r : RoadT) : list Lane := _lanes r.
Definition lane_count (r : RoadT) : Z := Z.of_nat (length (_lanes r)).
Definition nodes (r : RoadT) : list Node := _nodes r.
Definition node_count (r : RoadT) : Z := Z.of_nat (length (_nodes r)).
Definition node_at (r : RoadT) (index : Z) : result Node :=
  PyList.getitem (_nodes r) index.
Definition first_node (r : RoadT) : result Node := PyList.getitem (_nodes r) 0.
Definition last_node (r : RoadT) : result Node := PyList.getitem (_nodes r) (-1).

Definition width (r : RoadT) : result Num :=
  let external_offsets := map external_offset (lanes r) in
  lo ← py_min external_offsets;
  hi ← py_max external_offsets;
  Ok (num_add (num_abs lo) (num_abs hi)).

Definition control_points (r : RoadT) : list Point := map center (_nodes r).

Definition control_points_count (r : RoadT) : Z := Z.of_nat (length (_nodes r)).

Definition control_points_distances (r : RoadT) : list Num :=
  let points := control_points r in
  if Z.of_nat (length points) =? 1 then [float_zero]
  else
    let point_pairs := zip points (drop 1 points) in
    map (λ point_pair, distance_to point_pair.1 point_pair.2) point_pairs.

Definition _index_of_node_at (r : RoadT) (point : Point) : option Z :=
  PyList.first_index (λ node : Node, center node = point) (_nodes r).

(** *** Mutation *)

Definition reverse : M unit :=
  r ←ₘ get_self;
  set_nodes (rev (_nodes r)).

Definition replace_node_at (point : Point) (new_node : Node) : M unit :=
  r ←ₘ get_self;
  let index := _index_of_node_at r point in
  old_node ←ₘ liftR (PyList.getitem_obj (_nodes r) index);
  nodes' ←ₘ liftR (PyList.setitem_obj (_nodes r) index new_node);
  set_nodes nodes' ;;ₘ
  added_to new_node ;;ₘ
  removed_from old_node.

(** The body of the loop of [trim_redundant_nodes]; the loop's variables
    are [previous_node] and [trimmed_nodes]. *)
Definition trim_body (r : RoadT) (angle : Num)
    (s : Node * list Node) (index : Z) : result (Node * list Node) :=
  let '(previous_node, trimmed_nodes) := s in
  current_node ← node_at r index;
  following_node ← node_at r (index + 1);
  let previous_vector := point_sub (center current_node) (center previous_node) in
  let following_vector := point_sub (center following_node) (center current_node) in
  if is_intersection current_node
     || num_gt (num_abs (point_angle previous_vector following_vector)) angle
  then Ok (current_node, trimmed_nodes ++ [current_node])
  else Ok (previous_node, trimmed_nodes).

Definition trim_redundant_nodes (angle : Num) : M unit :=
  r ←ₘ get_self;
  previous_node ←ₘ liftR (first_node r);
  s ←ₘ liftR (fold_result (trim_body r angle) (previous_node, [previous_node])
                (PyList.range 1 (node_count r - 1)));
  last ←ₘ liftR (last_node r);
  set_nodes (s.2 ++ [last]).

(** *** Equality *)

(** [l1 == l2] on lists of nodes: lengths first, then element by element,
    where the same object is equal to itself without asking [__eq__]. *)
Fixpoint nodes_eq_items (l1 l2 : list Node) : bool :=
  match l1, l2 with
  | [], [] => true
  | a :: l1', b :: l2' =>
      if (node_id a =? node_id b)%nat || node_eq a b then nodes_eq_items l1' l2'
      else false
  | _, _ => false
  end.

Definition nodes_eq (l1 l2 : list Node) : bool :=
  if (length l1 =? length l2)%nat then nodes_eq_items l1 l2 else false.

(** [Road.__eq__]: [and] evaluates its operands left to right and stops at
    the first false one. *)
Definition Road_eq (self other : RoadT) : result bool :=
  if bool_decide (road_class self = road_class other) then
    w1 ← width self;
    w2 ← width other;
    if num_eq w1 w2 then Ok (nodes_eq (_nodes self) (_nodes other))
    else Ok false
  else Ok false.

Definition Road_ne (self other : RoadT) : result bool :=
  b ← Road_eq self other; Ok (negb b).

(** *** Worlds that methods leave

    The world after a successful [replace_node_at]: the chain is
    [nodes'], and [new_node.added_to(self)] then
    [old_node.removed_from(self)] are the two calls added to the log. *)
Definition replaced (w : WorldT) (nodes' : list Node) (new_node old_node : Node)
  : WorldT :=
  mkWorld
    (mkRoad (road_class (self w)) nodes'
            (_point_to_node (self w)) (_lanes (self w)))
    (mkEnv (next_id (env w))
           (calls (env w) ++ [AddedTo new_node; RemovedFrom old_node])).

(** The nodes [add_control_point] builds for a list of points when the
    next free identity is [start], and the index after they are entered
    into it one after the other: a later node at the same point takes the
    place of an earlier one. *)
Fixpoint fresh_nodes (start : nat) (points : list Point) : list Node :=
  match points with
  | [] => []
  | point :: points' =>
      mkNode start SimpleNode point :: fresh_nodes (S start) points'
  end.

Definition index_nodes (m : gmap Point Node) (l : list Node) : gmap Point Node :=
  fold_left (λ m node, <[center node := node]> m) l m.

(** The world in which only the chain of the road differs. *)
Definition with_nodes (w : WorldT) (nodes' : list Node) : WorldT :=
  mkWorld
    (mkRoad (road_class (self w)) nodes'
            (_point_to_node (self w)) (_lanes (self w)))
    (env w).

End RoadModel.

(** ** The trimmed chain, as the design describes it

    The first node, then the interior nodes that are kept, then the last
    node. Walking the chain after the first node, [previous_node] is the
    last node that was kept; a node that has a successor is kept when it is
    an intersection or when the absolute angle between the vector from
    [previous_node] to it and the vector from it to its successor is
    strictly greater than [angle]. The node without a successor is the
    last one and is not looked at here. A chain of fewer than three nodes
    has no interior node and stays as it is. *)
Section TrimmedChain.
Context {Point Num : Type} `{!Number Num} `{!PointOps Point Num}.

Definition turn_exceeds (angle : Num) (previous_node current_node following_node : RoadNode Point)
  : bool :=
  num_gt
    (num_abs (point_angle
                (point_sub (center current_node) (center previous_node))
                (point_sub (center following_node) (center current_node))))
    angle.

Fixpoint kept_interior (angle : Num) (previous_node : RoadNode Point)
    (rest : list (RoadNode Point)) : list (RoadNode Point) :=
  match rest with
  | [] => []
  | current_node :: rest' =>
      match rest' with
      | [] => []
      | following_node :: _ =>
          if is_intersection current_node
             || turn_exceeds angle previous_node current_node following_node
          then current_node :: kept_interior angle current_node rest'
          else kept_interior angle previous_node rest'
      end
  end.

Definition trimmed_chain (angle : Num) (chain : list (RoadNode Point))
  : list (RoadNode Point) :=
  match chain with
  | first :: ((_ :: _ :: _) as rest) =>
      first :: kept_interior angle first rest ++ [List.last rest first]
  | _ => chain
  end.

End TrimmedChain.

(** ** The rest of the class

    What the remaining methods use of the imported classes:
    [Point.almost_equal_to(other, precision)], the constructor of [Lane],
    [node.bounding_box(width)] and [BoundingBox.from_boxes(boxes)], and
    [math.fsum]. *)
Class PointApprox (Point : Type) := {
  almost_equal_to : Point → Point → Z → bool
}.

(** [Lane(road, width, offset, reversed)]; the reference from the lane
    back to its road is left out. *)
Class LaneNew (Lane Num : Type) := {
  Lane_new : Num → Num → bool → Lane
}.

Class BoxOps (Point Num Box : Type) := {
  node_bounding_box : RoadNode Point → Num → Box;
  from_boxes : list Box → result Box
}.

Class FSum (Num : Type) := {
  fsum : list Num → Num
}.

Module PySlice.

(** A bound of [l[lo:hi]]: a negative bound counts from the end, and the
    outcome is clamped to [0 .. len(l)]. *)
Definition clamp (n : Z) (i : Z) : Z :=
  let j := if i <? 0 then i + n else i in
  if j <? 0 then 0 else if n <? j then n else j.

(** [l[lo:hi]], with [hi = None] for an open end; a slice never
    raises. *)
Definition slice {A} (l : list A) (lo : Z) (hi : option Z) : list A :=
  let n := Z.of_nat (length l) in
  let start := clamp n lo in
  let stop := match hi with
              | None => n
              | Some h => clamp n h
              end in
  take (Z.to_nat (stop - start)) (drop (Z.to_nat start) l).

End PySlice.

(** [map(f, l)] (Python 2: evaluated at once, in order) for an [f] that
    may raise. *)
Fixpoint map_result {A B} (f : A → result B) (l : list A) : result (list B) :=
  match l with
  | [] => Ok []
  | x :: l' => y ← f x; ys ← map_result f l'; Ok (y :: ys)
  end.

Section RoadModelMore.
Context {Point Num Lane Box : Type} `{Countable Point}.
Context `{!Number Num} `{!PointOps Point Num} `{!LaneOps Lane Num}.
Context `{!PointApprox Point} `{!LaneNew Lane Num} `{!BoxOps Point Num Box}.
Context `{!FSum Num}.

Local Abbreviation Node := (RoadNode Point).
Local Abbreviation RoadT := (Road Point Lane).
Local Abbreviation WorldT := (World Point Lane).

(** [a is b] on nodes. *)
Definition same_object (a b : Node) : bool := (node_id a =? node_id b)%nat.

Definition _node_bounding_boxes (r : RoadT) : result (list Box) :=
  map_result (λ node, w ← width r; Ok (node_bounding_box node w)) (_nodes r).

Definition bounding_box (r : RoadT) : result Box :=
  node_bounding_boxes ← _node_bounding_boxes r;
  from_boxes node_bounding_boxes.

Definition includes_control_point (r : RoadT) (point : Point) : bool :=
  bool_decide (is_Some (_point_to_node r !! point))
  || existsb (λ node : Node, almost_equal_to (center node) point 5) (_nodes r).

(** [final] is [None] or an integer; [initial] defaults to [0]. *)
Definition sum_control_points_distances (r : RoadT) (initial : Z)
    (final : option Z) : Num :=
  let distances := control_points_distances r in
  match final with
  | None => fsum (PySlice.slice distances initial None)
  | Some final => fsum (PySlice.slice distances initial (Some final))
  end.

(** [width] defaults to [4] and [reversed] to [False] at the call. *)
Definition add_lane (offset width : Num) (reversed : bool) : M (Point := Point) (Lane := Lane) unit :=
  bindM get_self (λ r,
    put_self (mkRoad (road_class r) (_nodes r) (_point_to_node r)
                     (_lanes r ++ [Lane_new width offset reversed]))).

Definition lane_at (r : RoadT) (index : Z) : result Lane :=
  PyList.getitem (_lanes r) index.

Definition is_first_node (r : RoadT) (node : Node) : result bool :=
  first ← first_node r; Ok (same_object first node).

Definition is_last_node (r : RoadT) (node : Node) : result bool :=
  last ← last_node r; Ok (same_object last node).

End RoadModelMore.

(** ** An instance on the integer grid

    Used to run the model on concrete roads. Numbers are integers; points
    and vectors are pairs of integers; the angle of two vectors is stood
    in for by their cross product, which is zero exactly when they are
    parallel; the distance is the integer square root of the squared
    distance. A lane is its offset, width and direction, and its external
    offset lies half a width outwards of the offset. *)
Module Grid.

Definition Point : Type := Z * Z.

Record Lane : Type := mkLane {
  lane_offset : Z;
  lane_width : Z;
  lane_reversed : bool
}.

#[global] Instance number : Number Z := {|
  num_lt := Z.ltb;
  num_eq := Z.eqb;
  num_abs := Z.abs;
  num_add := Z.add;
  float_zero := 0
|}.

#[global] Instance points : PointOps Point Z := {|
  point_sub p q := (p.1 - q.1, p.2 - q.2);
  point_angle u v := u.1 * v.2 - u.2 * v.1;
  distance_to p q := Z.sqrt ((p.1 - q.1) * (p.1 - q.1) + (p.2 - q.2) * (p.2 - q.2))
|}.

#[global] Instance lane_ops : LaneOps Lane Z := {|
  external_offset l :=
    if lane_offset l <? 0 then lane_offset l - lane_width l / 2
    else lane_offset l + lane_width l / 2
|}.

(** Nodes are equal when they are of the same kind at the same point. *)
Definition node_eq (a b : RoadNode Point) : bool :=
  bool_decide (node_kind a = node_kind b ∧ center a = center b).

Definition simple (id : nat) (x y : Z) : RoadNode Point :=
  mkNode id SimpleNode (x, y).
Definition crossing (id : nat) (x y : Z) : RoadNode Point :=
  mkNode id IntersectionNode (x, y).

Definition road_of (nodes : list (RoadNode Point)) (lanes : list Lane)
  : Road Point Lane :=
  mkRoad "Road" nodes ∅ lanes.

Definition world_of (nodes : list (RoadNode Point)) : World Point Lane :=
  mkWorld (road_of nodes []) (mkEnv 100 []).

Definition empty_road : Road Point Lane := road_of [] [].

(** Three nodes on a line, the same with a crossing in the middle, and a
    chain that bends once. *)
Definition straight : World Point Lane :=
  world_of [simple 0 0 0; simple 1 5 0; simple 2 10 0].
Definition through_crossing : World Point Lane :=
  world_of [simple 0 0 0; crossing 1 5 0; simple 2 10 0].
Definition bend : World Point Lane :=
  world_of [simple 0 0 0; simple 1 5 0; simple 2 10 0; simple 3 10 5; simple 4 10 10].

Definition no_nodes : World Point Lane := world_of [].
Definition one_node : World Point Lane := world_of [simple 0 0 0].
Definition two_nodes : World Point Lane := world_of [simple 0 0 0; simple 1 5 0].

(** Two nodes at the same point. *)
Definition doubled : World Point Lane :=
  world_of [simple 0 0 0; simple 1 5 0; simple 2 5 0].

(** Lanes at offsets -2 and 3, each of width 4. *)
Definition two_lanes : Road Point Lane :=
  road_of [simple 0 0 0; simple 1 3 4; simple 2 3 10]
          [mkLane (-2) 4 false; mkLane 3 4 false].

(** Integer points agree to any number of decimals exactly when they are
    equal; the sum of integers is exact; a box is its two corners. *)
#[global] Instance approx : PointApprox Point := {|
  almost_equal_to p q precision := bool_decide (p = q)
|}.

#[global] Instance lane_new : LaneNew Lane Z := {|
  Lane_new width offset reversed := mkLane offset width reversed
|}.

#[global] Instance exact_sum : FSum Z := {|
  fsum l := fold_right Z.add 0 l
|}.

Definition Box : Type := (Z * Z) * (Z * Z).

Definition box_union (a b : Box) : Box :=
  ((Z.min a.1.1 b.1.1, Z.min a.1.2 b.1.2),
   (Z.max a.2.1 b.2.1, Z.max a.2.2 b.2.2)).

#[global] Instance boxes : BoxOps Point Z Box := {|
  node_bounding_box node width :=
    ((fst (center node) - width / 2, snd (center node) - width / 2),
     (fst (center node) + width / 2, snd (center node) + width / 2));
  from_boxes l :=
    match l with
    | [] => Raise ValueError
    | b :: l' => Ok (fold_left box_union l' b)
    end
|}.

(** [two_lanes] as a world, and the chain of [doubled] with two lanes. *)
Definition two_lanes_world : World Point Lane := mkWorld two_lanes (mkEnv 100 []).
Definition nodes_only : Road Point Lane :=
  road_of [simple 0 0 0; simple 1 3 4] [].

End Grid.

(** * Verification *)

(** ** Python lists *)

Lemma getitem_lookup {A} (l : list A) (i : nat) (x : A) :
  l !! i = Some x → PyList.getitem l (Z.of_nat i) = Ok x.
Proof.
  intros Hx. pose proof (lookup_lt_Some _ _ _ Hx) as Hlt.
  unfold PyList.getitem, PyList.normalize.
  destruct (Z.ltb_spec (Z.of_nat i) 0) as [Hneg|_]; [lia|].
  destruct (Z.ltb_spec (Z.of_nat i) 0) as [Hneg|_]; [lia|].
  destruct (Z.leb_spec (Z.of_nat (length l)) (Z.of_nat i)) as [Hge|_]; [lia|].
  simpl. by rewrite Nat2Z.id, Hx.
Qed.

Lemma getitem_nil {A} (i : Z) : PyList.getitem (@nil A) i = Raise IndexError.
Proof.
  unfold PyList.getitem, PyList.normalize.
  change (Z.of_nat (length (@nil A))) with 0.
  destruct (Z.ltb_spec i 0) as [Hneg|Hpos].
  - destruct (Z.ltb_spec (i + 0) 0) as [_|Hge]; [done|lia].
  - destruct (Z.ltb_spec i 0) as [Hneg|_]; [lia|].
    destruct (Z.leb_spec 0 i) as [_|Hlt]; [done|lia].
Qed.

Lemma last_cons_default {A} (l : list A) (a x y : A) :
  List.last (a :: l) x = List.last (a :: l) y.
Proof.
  revert a. induction l as [|b l IH]; intros a; [done|].
  change (List.last (b :: l) x = List.last (b :: l) y). apply IH.
Qed.

Lemma lookup_length_last {A} (l : list A) (x : A) :
  (x :: l) !! length l = Some (List.last l x).
Proof.
  revert x. induction l as [|y l IH]; intros x; [done|].
  change ((y :: l) !! length l = Some (List.last (y :: l) x)).
  rewrite (IH y). f_equal. destruct l as [|a l]; [done|].
  change (List.last (a :: l) y = List.last (a :: l) x).
  apply last_cons_default.
Qed.

Lemma getitem_last {A} (l : list A) (x : A) :
  PyList.getitem (x :: l) (-1) = Ok (List.last l x).
Proof.
  unfold PyList.getitem, PyList.normalize.
  change (-1 <? 0) with true. cbv iota.
  remember (length (x :: l)) as n eqn:Hn.
  assert (Hl : n = S (length l)) by (subst n; reflexivity).
  destruct (Z.ltb_spec (-1 + Z.of_nat n) 0) as [Hneg|_]; [lia|].
  destruct (Z.leb_spec (Z.of_nat n) (-1 + Z.of_nat n)) as [Hge|_]; [lia|].
  replace (Z.to_nat (-1 + Z.of_nat n)) with (length l) by lia.
  cbn [orb]. by rewrite lookup_length_last.
Qed.

Lemma setitem_lookup {A} (l : list A) (i : nat) (x : A) :
  (i < length l)%nat → PyList.setitem l (Z.of_nat i) x = Ok (<[i := x]> l).
Proof.
  intros Hlt. unfold PyList.setitem, PyList.normalize.
  destruct (Z.ltb_spec (Z.of_nat i) 0) as [Hneg|_]; [lia|].
  destruct (Z.ltb_spec (Z.of_nat i) 0) as [Hneg|_]; [lia|].
  destruct (Z.leb_spec (Z.of_nat (length l)) (Z.of_nat i)) as [Hge|_]; [lia|].
  simpl. by rewrite Nat2Z.id.
Qed.

Lemma range_empty (lo hi : Z) : hi ≤ lo → PyList.range lo hi = [].
Proof.
  intros Hle. unfold PyList.range.
  by replace (Z.to_nat (hi - lo)) with 0%nat by lia.
Qed.

Lemma range_step (lo hi : Z) :
  lo < hi → PyList.range lo hi = lo :: PyList.range (lo + 1) hi.
Proof.
  intros Hlt. unfold PyList.range.
  replace (Z.to_nat (hi - lo)) with (S (Z.to_nat (hi - (lo + 1)))) by lia.
  simpl. f_equal; [lia|].
  rewrite <- seq_shift, map_map. apply map_ext. intros k. lia.
Qed.

Lemma first_index_None {A} (P : A → Prop) `{!∀ x, Decision (P x)} (l : list A) :
  Forall (λ x, ¬ P x) l → PyList.first_index P l = None.
Proof.
  intros Hall. unfold PyList.first_index.
  by rewrite (proj2 (list_find_None P l) Hall).
Qed.

Lemma first_index_app {A} (P : A → Prop) `{!∀ x, Decision (P x)}
    (pre post : list A) (x : A) :
  Forall (λ y, ¬ P y) pre → P x →
  PyList.first_index P (pre ++ x :: post) = Some (Z.of_nat (length pre)).
Proof.
  intros Hpre Hx. unfold PyList.first_index.
  assert (Hfind : list_find P (pre ++ x :: post) = Some (length pre, x)).
  { apply list_find_Some. split_and!.
    - by rewrite list_lookup_middle.
    - done.
    - intros j y Hj Hlt. rewrite lookup_app_l in Hj by done.
      rewrite Forall_forall in Hpre. apply Hpre.
      by eapply list_elem_of_lookup_2. }
  by rewrite Hfind.
Qed.

Lemma map_is_fmap {A B} (f : A → B) (l : list A) : map f l = f <$> l.
Proof. reflexivity. Qed.

(** ** Accessors, distances and reversal *)

Section Accessors.
Context {Point Num Lane : Type} `{Countable Point}.
Context `{!Number Num} `{!PointOps Point Num}.

Local Abbreviation RoadT := (Road Point Lane).
Local Abbreviation WorldT := (World Point Lane).

Lemma node_count_nil (r : RoadT) : node_count r = 0 → _nodes r = [].
Proof.
  unfold node_count. destruct (_nodes r); [done|]. simpl. lia.
Qed.

Lemma first_node_nil (r : RoadT) :
  _nodes r = [] → first_node r = Raise IndexError.
Proof. intros Hempty. unfold first_node. rewrite Hempty. apply getitem_nil. Qed.

Lemma last_node_nil (r : RoadT) :
  _nodes r = [] → last_node r = Raise IndexError.
Proof. intros Hempty. unfold last_node. rewrite Hempty. apply getitem_nil. Qed.

(** C8, as amended: on an empty road ([node_count() == 0]) both
    [first_node()] and [last_node()] raise the built-in [IndexError] of the
    list access [self._nodes[0]], respectively [self._nodes[-1]]. *)
Theorem first_last_node_empty (r : RoadT) :
  node_count r = 0 →
  first_node r = Raise IndexError ∧ last_node r = Raise IndexError.
Proof.
  intros Hempty. apply node_count_nil in Hempty.
  split; [by apply first_node_nil|by apply last_node_nil].
Qed.

(** On a road with at least one node the two accessors return the two
    ends of the chain. *)
Lemma first_last_node_cons (r : RoadT) (first : RoadNode Point) rest :
  _nodes r = first :: rest →
  first_node r = Ok first ∧ last_node r = Ok (List.last rest first).
Proof.
  intros Hnodes. unfold first_node, last_node. rewrite Hnodes. split.
  - by apply (getitem_lookup _ 0%nat).
  - apply getitem_last.
Qed.

Lemma reverse_run (w : WorldT) :
  reverse w =
  (Ok tt,
   mkWorld (mkRoad (road_class (self w)) (rev (_nodes (self w)))
              (_point_to_node (self w)) (_lanes (self w)))
           (env w)).
Proof. reflexivity. Qed.

(** C9: calling [reverse()] twice restores the original order of the
    nodes; nothing else of the road or of its environment changes either,
    so the world is the one before the two calls. *)
Theorem reverse_twice (w : WorldT) :
  bindM reverse (λ _, reverse) w = (Ok tt, w).
Proof.
  unfold bindM. rewrite reverse_run. rewrite reverse_run. simpl.
  rewrite rev_involutive. by destruct w as [[] []].
Qed.

(** C3: [control_points_distances()] on a road with exactly one control
    point is [[0.0]]; on any other road it has [max(node_count() - 1, 0)]
    elements and its [i]-th element is the distance from control point [i]
    to control point [i + 1]. *)
Theorem control_points_distances_spec (r : RoadT) :
  (node_count r = 1 → control_points_distances r = [float_zero]) ∧
  (node_count r ≠ 1 →
   Z.of_nat (length (control_points_distances r)) = Z.max (node_count r - 1) 0 ∧
   ∀ (i : nat) (p q : Point),
     control_points r !! i = Some p →
     control_points r !! S i = Some q →
     control_points_distances r !! i = Some (distance_to p q)).
Proof.
  unfold control_points_distances, node_count.
  assert (Hlen : length (control_points r) = length (_nodes r))
    by (unfold control_points; apply length_map).
  rewrite Hlen. split.
  - intros Hone. by rewrite Hone.
  - intros Hne.
    destruct (Z.eqb_spec (Z.of_nat (length (_nodes r))) 1) as [|_]; [done|].
    split.
    + rewrite length_map, length_zip_with, length_drop, Hlen. lia.
    + intros i p q Hp Hq.
      rewrite map_is_fmap, list_lookup_fmap, lookup_zip_with, lookup_drop.
      change (1 + i)%nat with (S i). by rewrite Hp, Hq.
Qed.

End Accessors.

(** ** [min] and [max] *)

Section Extremum.
Context {Num : Type}.
Variable better : Num → Num → bool.

Lemma scan_elem_of (xs : list Num) (x : Num) :
  fold_left (pick better) xs x ∈ x :: xs.
Proof.
  revert x. induction xs as [|y xs IH]; intros x; simpl.
  - apply list_elem_of_here.
  - destruct (proj1 (elem_of_cons _ _ _) (IH (pick better x y))) as [->|Hin].
    + unfold pick. destruct (better y x).
      * apply list_elem_of_further, list_elem_of_here.
      * apply list_elem_of_here.
    + by do 2 apply list_elem_of_further.
Qed.

Hypothesis better_irrefl : ∀ a, better a a = false.
Hypothesis better_trans :
  ∀ a b c, better a b = true → better b c = true → better a c = true.

Lemma no_better_step (seen : list Num) (candidate item : Num) :
  (∀ y, y ∈ seen → better y candidate = false) →
  ∀ y, y ∈ seen ++ [item] → better y (pick better candidate item) = false.
Proof.
  intros Hseen y Hy. unfold pick.
  apply elem_of_app in Hy as [Hy|Hy].
  - destruct (better item candidate) eqn:Hitem; [|by apply Hseen].
    destruct (better y item) eqn:Hyi; [|done].
    rewrite <- (Hseen y Hy). symmetry. by eapply better_trans.
  - apply list_elem_of_singleton in Hy as ->.
    by destruct (better item candidate) eqn:Hitem.
Qed.

Lemma scan_no_better (xs seen : list Num) (x : Num) :
  (∀ y, y ∈ seen → better y x = false) →
  ∀ y, y ∈ seen ++ xs → better y (fold_left (pick better) xs x) = false.
Proof.
  revert seen x. induction xs as [|z xs IH]; intros seen x Hseen y Hy.
  - rewrite app_nil_r in Hy. by apply Hseen.
  - simpl. apply (IH (seen ++ [z])).
    + by apply no_better_step.
    + by rewrite <- app_assoc.
Qed.

End Extremum.

Section MinMax.
Context `{Number Num}.

Lemma py_min_nonempty (x : Num) (xs : list Num) :
  ∃ lo, py_min (x :: xs) = Ok lo ∧ lo ∈ x :: xs.
Proof.
  exists (fold_left (pick num_lt) xs x). split; [reflexivity|].
  apply scan_elem_of.
Qed.

Lemma py_max_nonempty (x : Num) (xs : list Num) :
  ∃ hi, py_max (x :: xs) = Ok hi ∧ hi ∈ x :: xs.
Proof.
  exists (fold_left (pick num_gt) xs x). split; [reflexivity|].
  apply scan_elem_of.
Qed.

(** When [<] is irreflexive and transitive, no element is below [min(l)]
    and none is above [max(l)]. *)
Lemma py_min_least (l : list Num) (lo : Num) :
  strict_order_lt Num → py_min l = Ok lo → ∀ y, y ∈ l → num_lt y lo = false.
Proof.
  intros [Hirr Htrans] Hmin y Hy. destruct l as [|x xs]; [done|].
  injection Hmin as <-.
  apply (scan_no_better num_lt Hirr Htrans xs [x] x); [|done].
  intros z Hz. apply list_elem_of_singleton in Hz as ->. apply Hirr.
Qed.

Lemma py_max_greatest (l : list Num) (hi : Num) :
  strict_order_lt Num → py_max l = Ok hi → ∀ y, y ∈ l → num_lt hi y = false.
Proof.
  intros [Hirr Htrans] Hmax y Hy. destruct l as [|x xs]; [done|].
  injection Hmax as <-.
  assert (Hgt_irr : ∀ a : Num, num_gt a a = false) by (intros a; apply Hirr).
  assert (Hgt_trans : ∀ a b c : Num,
            num_gt a b = true → num_gt b c = true → num_gt a c = true).
  { intros a b c Hab Hbc. unfold num_gt in *. by eapply Htrans. }
  apply (scan_no_better num_gt Hgt_irr Hgt_trans xs [x] x); [|done].
  intros z Hz. apply list_elem_of_singleton in Hz as ->. apply Hirr.
Qed.

End MinMax.

(** ** Width and equality *)

Section Width.
Context {Point Num Lane : Type} `{Countable Point}.
Context `{!Number Num} `{!LaneOps Lane Num}.

Local Abbreviation RoadT := (Road Point Lane).

Lemma lane_count_nil (r : RoadT) : lane_count r = 0 → _lanes r = [].
Proof.
  unfold lane_count. destruct (_lanes r); [done|]. simpl. lia.
Qed.

Lemma width_no_lanes (r : RoadT) :
  lane_count r = 0 → width r = Raise ValueError.
Proof.
  intros Hnone. apply lane_count_nil in Hnone.
  unfold width, lanes. by rewrite Hnone.
Qed.

(** No statement of [width()] raises anything but [ValueError]. *)
Lemma width_raises_only_ValueError (r : RoadT) (e : exn) :
  width r = Raise e → e = ValueError.
Proof.
  unfold width, lanes. destruct (_lanes r) as [|l ls]; simpl.
  - by intros [= <-].
  - discriminate.
Qed.

Lemma width_some_lanes (r : RoadT) :
  1 ≤ lane_count r →
  ∃ lo hi : Num,
    py_min (map external_offset (lanes r)) = Ok lo ∧
    py_max (map external_offset (lanes r)) = Ok hi ∧
    width r = Ok (num_add (num_abs lo) (num_abs hi)) ∧
    lo ∈ map external_offset (lanes r) ∧
    hi ∈ map external_offset (lanes r).
Proof.
  intros Hsome. unfold width, lane_count, lanes in *.
  destruct (_lanes r) as [|l ls]; [simpl in Hsome; lia|].
  cbn [map].
  destruct (py_min_nonempty (external_offset l) (map external_offset ls))
    as (lo & Hlo & Hlo_in).
  destruct (py_max_nonempty (external_offset l) (map external_offset ls))
    as (hi & Hhi & Hhi_in).
  exists lo, hi. by rewrite Hlo, Hhi.
Qed.

(** C5, as amended: with no lane, [width()] raises the built-in
    [ValueError] of [min()] on an empty sequence; with at least one lane
    it returns [abs(min(offsets)) + abs(max(offsets))] over the lanes'
    external offsets, where [min] and [max] are two of the offsets, and,
    [<] being a strict order, no offset is below the one and none is above
    the other. *)
Theorem width_spec (r : RoadT) :
  (lane_count r = 0 → width r = Raise ValueError) ∧
  (1 ≤ lane_count r →
   ∃ lo hi : Num,
     py_min (map external_offset (lanes r)) = Ok lo ∧
     py_max (map external_offset (lanes r)) = Ok hi ∧
     width r = Ok (num_add (num_abs lo) (num_abs hi)) ∧
     lo ∈ map external_offset (lanes r) ∧
     hi ∈ map external_offset (lanes r) ∧
     (strict_order_lt Num →
      ∀ x, x ∈ map external_offset (lanes r) →
           num_lt x lo = false ∧ num_lt hi x = false)).
Proof.
  split; [apply width_no_lanes|].
  intros Hsome.
  destruct (width_some_lanes r Hsome) as (lo & hi & Hlo & Hhi & Hw & Hlo_in & Hhi_in).
  exists lo, hi. split_and!; try done.
  intros Hord x Hx. split.
  - by eapply py_min_least.
  - by eapply py_max_greatest.
Qed.

Variable node_eq : RoadNode Point → RoadNode Point → bool.

(** C6, as amended: comparing two roads that both have no lane raises
    [ValueError], out of [self.width()], when they are of the same class;
    when their classes differ, [==] answers [False] before any width is
    computed. *)
Theorem Road_eq_no_lanes (r other : RoadT) :
  lane_count r = 0 → lane_count other = 0 →
  (road_class r = road_class other →
   Road_eq node_eq r other = Raise ValueError) ∧
  (road_class r ≠ road_class other →
   Road_eq node_eq r other = Ok false).
Proof.
  intros Hr _. unfold Road_eq. split; intros Hcls.
  - rewrite bool_decide_eq_true_2 by done.
    by rewrite (width_no_lanes r Hr).
  - by rewrite bool_decide_eq_false_2.
Qed.

(** With lanes on both sides [==] returns a boolean. *)
Lemma Road_eq_with_lanes (r other : RoadT) :
  1 ≤ lane_count r → 1 ≤ lane_count other →
  returns (Road_eq node_eq r other).
Proof.
  intros Hr Ho. unfold Road_eq, returns.
  destruct (bool_decide _); [|by eexists].
  destruct (width_some_lanes r Hr) as (? & ? & _ & _ & -> & _).
  destruct (width_some_lanes other Ho) as (? & ? & _ & _ & -> & _).
  simpl. destruct (num_eq _ _); by eexists.
Qed.

End Width.

(** ** Replacing a node *)

Section Replace.
Context {Point Lane : Type} `{Countable Point}.

Local Abbreviation Node := (RoadNode Point).
Local Abbreviation WorldT := (World Point Lane).

(** A list with an element that satisfies [P] splits at the first such
    element. *)
Lemma split_at_first {A} (P : A → Prop) `{!∀ x, Decision (P x)} (l : list A) :
  Exists P l →
  ∃ pre x post, l = pre ++ x :: post ∧ Forall (λ y, ¬ P y) pre ∧ P x.
Proof.
  induction l as [|a l IH]; intros Hex; [by apply Exists_nil in Hex|].
  destruct (decide (P a)) as [Ha|Hna].
  - exists [], a, l. by split_and!.
  - apply Exists_cons in Hex as [Ha|Hex]; [done|].
    destruct (IH Hex) as (pre & x & post & -> & Hpre & Hx).
    exists (a :: pre), x, post. split_and!; [done| |done].
    by apply Forall_cons.
Qed.

Lemma replace_node_at_missing (point : Point) (new_node : Node) (w : WorldT) :
  Forall (λ node : Node, center node ≠ point) (_nodes (self w)) →
  replace_node_at point new_node w = (Raise TypeError, w).
Proof.
  intros Hnone. unfold replace_node_at, bindM, get_self, liftR, _index_of_node_at.
  by rewrite (first_index_None _ _ Hnone).
Qed.

Lemma replace_node_at_first (point : Point) (new_node : Node) (w : WorldT)
    (pre post : list Node) (old_node : Node) :
  _nodes (self w) = pre ++ old_node :: post →
  Forall (λ node : Node, center node ≠ point) pre →
  center old_node = point →
  replace_node_at point new_node w =
  (Ok tt, replaced w (pre ++ new_node :: post) new_node old_node).
Proof.
  intros Hnodes Hpre Hold.
  unfold replace_node_at, bindM, get_self, liftR, _index_of_node_at.
  rewrite Hnodes.
  rewrite (first_index_app (λ node : Node, center node = point) pre post old_node)
    by done.
  cbn [PyList.getitem_obj PyList.setitem_obj].
  rewrite (getitem_lookup _ (length pre) old_node) by apply list_lookup_middle, eq_refl.
  rewrite setitem_lookup by (rewrite length_app; simpl; lia).
  rewrite insert_app_r_alt by lia. rewrite Nat.sub_diag.
  unfold set_nodes, added_to, removed_from, log_call, bindM, get_self, put_self, replaced.
  cbn. by rewrite <- app_assoc.
Qed.

(** C7, as amended: when no node's center equals [point],
    [replace_node_at(point, new_node)] raises [TypeError] (the list is
    indexed by the [None] that the lookup returned) and leaves the road as
    it was, with no call made on any node; when some node's center equals
    [point], the slot of such a node is given [new_node], and
    [new_node.added_to(self)] is called before [old_node.removed_from(self)]. *)
Theorem replace_node_at_spec (point : Point) (new_node : Node) (w : WorldT) :
  (Forall (λ node : Node, center node ≠ point) (_nodes (self w)) →
   replace_node_at point new_node w = (Raise TypeError, w)) ∧
  (Exists (λ node : Node, center node = point) (_nodes (self w)) →
   ∃ (i : nat) (old_node : Node),
     _nodes (self w) !! i = Some old_node ∧
     center old_node = point ∧
     replace_node_at point new_node w =
     (Ok tt, replaced w (<[i := new_node]> (_nodes (self w))) new_node old_node)).
Proof.
  split; [apply replace_node_at_missing|].
  intros Hsome.
  destruct (split_at_first _ _ Hsome) as (pre & old_node & post & Hnodes & Hpre & Hold).
  exists (length pre), old_node. split_and!.
  - rewrite Hnodes. by apply list_lookup_middle.
  - done.
  - rewrite (replace_node_at_first point new_node w pre post old_node) by done.
    rewrite Hnodes, insert_app_r_alt by lia. by rewrite Nat.sub_diag.
Qed.

(** C10: when more than one node's center equals [point], only the first
    of them is replaced: the nodes before it and all the nodes after it,
    the later matches among them, stay where they are. *)
Theorem replace_node_at_first_match_only (point : Point) (new_node : Node)
    (w : WorldT) (pre post : list Node) (old_node : Node) :
  _nodes (self w) = pre ++ old_node :: post →
  Forall (λ node : Node, center node ≠ point) pre →
  center old_node = point →
  Exists (λ node : Node, center node = point) post →
  ∃ w' : WorldT,
    replace_node_at point new_node w = (Ok tt, w') ∧
    _nodes (self w') = pre ++ new_node :: post ∧
    ∀ (j : nat) (node : Node),
      j ≠ length pre →
      _nodes (self w) !! j = Some node → _nodes (self w') !! j = Some node.
Proof.
  intros Hnodes Hpre Hold _.
  exists (replaced w (pre ++ new_node :: post) new_node old_node). split_and!.
  - by apply replace_node_at_first.
  - reflexivity.
  - intros j node Hj. rewrite Hnodes. cbn [replaced self _nodes].
    destruct (decide (j < length pre)%nat) as [Hlt|Hge].
    + by rewrite !lookup_app_l.
    + rewrite !lookup_app_r by lia.
      destruct (j - length pre)%nat as [|k] eqn:Hk; [lia|done].
Qed.

End Replace.

(** ** Trimming redundant nodes *)

Section Trim.
Context {Point Num Lane : Type} `{Countable Point}.
Context `{!Number Num} `{!PointOps Point Num}.

Local Abbreviation Node := (RoadNode Point).
Local Abbreviation RoadT := (Road Point Lane).
Local Abbreviation WorldT := (World Point Lane).

Lemma node_at_middle (r : RoadT) (pre post : list Node) (node : Node) :
  _nodes r = pre ++ node :: post →
  node_at r (Z.of_nat (length pre)) = Ok node.
Proof.
  intros Hnodes. unfold node_at. apply getitem_lookup.
  rewrite Hnodes. by apply list_lookup_middle.
Qed.

(** One turn of the loop at an index whose node has a successor. *)
Lemma trim_body_run (r : RoadT) (angle : Num) (index : Z)
    (previous_node current_node following_node : Node) (trimmed_nodes : list Node) :
  node_at r index = Ok current_node →
  node_at r (index + 1) = Ok following_node →
  trim_body r angle (previous_node, trimmed_nodes) index =
  if is_intersection current_node
     || turn_exceeds angle previous_node current_node following_node
  then Ok (current_node, trimmed_nodes ++ [current_node])
  else Ok (previous_node, trimmed_nodes).
Proof.
  intros Hcur Hnext. unfold trim_body. by rewrite Hcur, Hnext.
Qed.

(** The loop, started at the index of the first node of [rest] with
    [previous_node] and [trimmed_nodes] as they are then, runs to the end
    without an exception and appends to [trimmed_nodes] the interior
    nodes the design keeps. *)
Lemma trim_loop (r : RoadT) (angle : Num) (rest : list Node) :
  ∀ (pre : list Node) (previous_node : Node) (trimmed_nodes : list Node),
    _nodes r = pre ++ rest →
    rest ≠ [] →
    ∃ previous_node',
      fold_result (trim_body r angle) (previous_node, trimmed_nodes)
        (PyList.range (Z.of_nat (length pre))
                      (Z.of_nat (length pre) + Z.of_nat (length rest) - 1))
      = Ok (previous_node',
            trimmed_nodes ++ kept_interior angle previous_node rest).
Proof.
  induction rest as [|current_node rest IH];
    intros pre previous_node trimmed_nodes Hnodes Hne; [done|].
  destruct rest as [|following_node rest].
  - rewrite range_empty by (simpl; lia).
    exists previous_node. simpl. by rewrite app_nil_r.
  - rewrite range_step by (simpl; lia).
    cbn [fold_result].
    assert (Hnodes' : _nodes r = (pre ++ [current_node]) ++ following_node :: rest)
      by (by rewrite <- app_assoc).
    assert (Hlen : Z.of_nat (length pre) + 1
                   = Z.of_nat (length (pre ++ [current_node])))
      by (rewrite length_app; simpl; lia).
    rewrite (trim_body_run r angle _ previous_node current_node following_node).
    2:{ by eapply node_at_middle. }
    2:{ rewrite Hlen. by eapply node_at_middle. }
    assert (Hhi : Z.of_nat (length pre)
                  + Z.of_nat (length (current_node :: following_node :: rest)) - 1
                  = Z.of_nat (length (pre ++ [current_node]))
                    + Z.of_nat (length (following_node :: rest)) - 1)
      by (rewrite length_app; simpl; lia).
    rewrite Hlen, Hhi. cbn [kept_interior].
    destruct (is_intersection current_node || _) eqn:Hkeep; cbn [mbind result_bind].
    + destruct (IH (pre ++ [current_node]) current_node
                  (trimmed_nodes ++ [current_node]) Hnodes' ltac:(done))
        as [p' Hrun].
      exists p'. rewrite Hrun. by rewrite <- app_assoc.
    + destruct (IH (pre ++ [current_node]) previous_node
                  trimmed_nodes Hnodes' ltac:(done))
        as [p' Hrun].
      exists p'. by rewrite Hrun.
Qed.

(** On a road that is not empty the method returns, with this chain. *)
Lemma trim_redundant_nodes_cons (angle : Num) (w : WorldT)
    (first : Node) (rest : list Node) :
  _nodes (self w) = first :: rest →
  trim_redundant_nodes angle w =
  (Ok tt,
   with_nodes w (first :: kept_interior angle first rest ++ [List.last rest first])).
Proof.
  intros Hnodes. unfold trim_redundant_nodes, bindM, get_self, liftR.
  destruct (first_last_node_cons (self w) first rest Hnodes) as [-> Hlast].
  destruct rest as [|second rest].
  - unfold node_count. rewrite Hnodes. rewrite range_empty by (simpl; lia).
    cbn [fold_result]. rewrite Hlast. reflexivity.
  - destruct (trim_loop (self w) angle (second :: rest) [first] first [first]
                Hnodes ltac:(done)) as [p' Hrun].
    replace (PyList.range 1 (node_count (self w) - 1))
      with (PyList.range (Z.of_nat (length [first]))
              (Z.of_nat (length [first]) + Z.of_nat (length (second :: rest)) - 1)).
    2:{ unfold node_count. rewrite Hnodes. f_equal. simpl length. lia. }
    rewrite Hrun, Hlast. reflexivity.
Qed.

(** C1: on a road with at least three nodes, [trim_redundant_nodes(angle)]
    returns and replaces the chain by the first node, then every interior
    node that is an intersection or turns by strictly more than [angle]
    with respect to the last node kept before it, then the last node;
    nothing else of the road changes. *)
Theorem trim_redundant_nodes_spec (angle : Num) (w : WorldT) :
  3 ≤ node_count (self w) →
  trim_redundant_nodes angle w =
  (Ok tt, with_nodes w (trimmed_chain angle (_nodes (self w)))).
Proof.
  intros Hlen. unfold node_count in Hlen.
  destruct (_nodes (self w)) as [|first [|second [|third rest]]] eqn:Hnodes;
    simpl in Hlen; try lia.
  by rewrite (trim_redundant_nodes_cons angle w first (second :: third :: rest)).
Qed.

(** C2, as amended: on a road with exactly two nodes
    [trim_redundant_nodes(angle)] returns and leaves the road as it was;
    on an empty road it raises [IndexError], out of [first_node()], and
    leaves the road as it was. *)
Theorem trim_redundant_nodes_short (angle : Num) (w : WorldT) :
  (node_count (self w) = 2 → trim_redundant_nodes angle w = (Ok tt, w)) ∧
  (node_count (self w) = 0 → trim_redundant_nodes angle w = (Raise IndexError, w)).
Proof.
  split; intros Hlen.
  - unfold node_count in Hlen.
    destruct (_nodes (self w)) as [|first [|second [|third rest]]] eqn:Hnodes;
      simpl in Hlen; try lia.
    rewrite (trim_redundant_nodes_cons angle w first [second] Hnodes).
    unfold with_nodes. cbn [kept_interior List.last app]. rewrite <- Hnodes.
    by destruct w as [[] ?].
  - unfold trim_redundant_nodes, bindM, get_self, liftR.
    by rewrite (first_node_nil (self w) (node_count_nil (self w) Hlen)).
Qed.

(** On a road with a single node the method returns and the chain has
    that node twice: the first node and the last node are both appended. *)
Lemma trim_redundant_nodes_single (angle : Num) (w : WorldT) (node : Node) :
  _nodes (self w) = [node] →
  trim_redundant_nodes angle w = (Ok tt, with_nodes w [node; node]).
Proof.
  intros Hnodes. by rewrite (trim_redundant_nodes_cons angle w node []).
Qed.

(** What the trimmed chain keeps: both ends, and every intersection. *)
Lemma kept_interior_intersections (angle : Num) (rest : list Node) :
  ∀ (previous_node : Node) (i : nat) (node : Node),
    rest !! i = Some node → (S i < length rest)%nat →
    is_intersection node = true →
    node ∈ kept_interior angle previous_node rest.
Proof.
  induction rest as [|current_node rest IH]; intros previous_node i node Hi Hlt Hx;
    [done|].
  destruct rest as [|following_node rest]; [simpl in Hlt; lia|].
  cbn [kept_interior]. destruct i as [|i].
  - injection Hi as ->. rewrite Hx. apply list_elem_of_here.
  - assert (Hin : ∀ p, node ∈ kept_interior angle p (following_node :: rest)).
    { intros p. apply (IH p i); [done|simpl in *; lia|done]. }
    destruct (is_intersection current_node || _); [|apply Hin].
    apply list_elem_of_further, Hin.
Qed.

End Trim.

(** ** Construction from control points *)

Section Construction.
Context {Point Lane : Type} `{Countable Point}.

Local Abbreviation Node := (RoadNode Point).
Local Abbreviation RoadT := (Road Point Lane).
Local Abbreviation WorldT := (World Point Lane).

Lemma add_control_point_run (point : Point) (w : WorldT) :
  add_control_point point w =
  (Ok tt,
   mkWorld
     (mkRoad (road_class (self w))
             (_nodes (self w) ++ [mkNode (next_id (env w)) SimpleNode point])
             (<[point := mkNode (next_id (env w)) SimpleNode point]>
                (_point_to_node (self w)))
             (_lanes (self w)))
     (mkEnv (S (next_id (env w)))
            (calls (env w) ++ [AddedTo (mkNode (next_id (env w)) SimpleNode point)]))).
Proof. reflexivity. Qed.

Lemma add_control_points_run (points : list Point) :
  ∀ w : WorldT,
    add_control_points points w =
    (Ok tt,
     mkWorld
       (mkRoad (road_class (self w))
               (_nodes (self w) ++ fresh_nodes (next_id (env w)) points)
               (index_nodes (_point_to_node (self w))
                            (fresh_nodes (next_id (env w)) points))
               (_lanes (self w)))
       (mkEnv (next_id (env w) + length points)
              (calls (env w) ++ map AddedTo (fresh_nodes (next_id (env w)) points)))).
Proof.
  unfold add_control_points.
  induction points as [|point points IH]; intros w.
  - simpl. unfold retM. rewrite !app_nil_r, Nat.add_0_r.
    by destruct w as [[] []].
  - cbn [for_each]. unfold bindM at 1. rewrite add_control_point_run, IH.
    cbn [self env road_class _nodes _point_to_node _lanes next_id calls
         fresh_nodes map length].
    unfold index_nodes. cbn [fold_left center].
    rewrite <- !app_assoc. cbn [app].
    by replace (S (next_id (env w)) + length points)%nat
      with (next_id (env w) + S (length points))%nat by lia.
Qed.

Lemma fresh_nodes_centers (points : list Point) :
  ∀ start, map center (fresh_nodes start points) = points.
Proof.
  induction points as [|point points IH]; intros start; [done|].
  simpl. by rewrite IH.
Qed.

Lemma fresh_nodes_simple (points : list Point) :
  ∀ start (node : Node),
    node ∈ fresh_nodes start points → node_kind node = SimpleNode.
Proof.
  induction points as [|point points IH]; intros start node Hin; simpl in Hin.
  - by apply elem_of_nil in Hin.
  - apply elem_of_cons in Hin as [->|Hin]; [done|]. by eapply IH.
Qed.

(** The nodes are new objects: their identities are the free ones, in
    order, so no two of them are the same object. *)
Lemma fresh_nodes_ids (points : list Point) :
  ∀ start, map node_id (fresh_nodes start points) = seq start (length points).
Proof.
  induction points as [|point points IH]; intros start; [done|].
  simpl. by rewrite IH.
Qed.

Lemma index_nodes_snoc (m : gmap Point Node) (l : list Node) (node : Node) :
  index_nodes m (l ++ [node]) = <[center node := node]> (index_nodes m l).
Proof. unfold index_nodes. by rewrite fold_left_app. Qed.

(** Every node that was entered has its point in the index, mapped to a
    node that was entered at that point. *)
Lemma index_nodes_lookup (m : gmap Point Node) (l : list Node) :
  ∀ node : Node,
    node ∈ l →
    ∃ node' : Node,
      index_nodes m l !! center node = Some node' ∧
      node' ∈ l ∧ center node' = center node.
Proof.
  induction l as [|last l IH] using rev_ind; intros node Hin.
  - by apply elem_of_nil in Hin.
  - rewrite index_nodes_snoc.
    destruct (decide (center last = center node)) as [Heq|Hne].
    + exists last. rewrite <- Heq, lookup_insert_eq. split_and!; [done| |done].
      apply elem_of_app. right. apply list_elem_of_here.
    + apply elem_of_app in Hin as [Hin|Hin].
      * destruct (IH node Hin) as (node' & Hlook & Hin' & Hc).
        exists node'. rewrite lookup_insert_ne by done. split_and!; [done| |done].
        apply elem_of_app. by left.
      * apply list_elem_of_singleton in Hin as ->. done.
Qed.

(** When no two of the nodes entered are at the same point, each is the
    node its point is mapped to. *)
Lemma index_nodes_lookup_NoDup (m : gmap Point Node) (l : list Node) :
  NoDup (map center l) →
  ∀ node : Node, node ∈ l → index_nodes m l !! center node = Some node.
Proof.
  induction l as [|last l IH] using rev_ind; intros Hnd node Hin.
  - by apply elem_of_nil in Hin.
  - rewrite index_nodes_snoc. rewrite map_app in Hnd. simpl in Hnd.
    apply NoDup_app in Hnd as (Hnd & Hdisj & _).
    apply elem_of_app in Hin as [Hin|Hin].
    + rewrite lookup_insert_ne; [by apply IH|].
      intros Heq. apply (Hdisj (center node)).
      * rewrite map_is_fmap. apply list_elem_of_fmap. by exists node.
      * rewrite Heq. apply list_elem_of_here.
    + apply list_elem_of_singleton in Hin as ->. by rewrite lookup_insert_eq.
Qed.

(** The entry of a node's point is the last node that was entered at
    that point. *)
Lemma index_nodes_lookup_last (m : gmap Point Node) (pre post : list Node)
    (node : Node) :
  Forall (λ later : Node, center later ≠ center node) post →
  index_nodes m (pre ++ node :: post) !! center node = Some node.
Proof.
  induction post as [|last post IH] using rev_ind; intros Hlater.
  - rewrite index_nodes_snoc. apply lookup_insert_eq.
  - apply Forall_app in Hlater as [Hlater Hlast].
    apply Forall_cons in Hlast as [Hlast _].
    change (pre ++ node :: post ++ [last]) with (pre ++ (node :: post) ++ [last]).
    rewrite app_assoc, index_nodes_snoc.
    rewrite lookup_insert_ne by done. by apply IH.
Qed.

Lemma index_nodes_lookup_inv (l : list Node) (point : Point) (node : Node) :
  index_nodes ∅ l !! point = Some node →
  ∃ l1 l2 : list Node,
    l = l1 ++ node :: l2 ∧ center node = point
    ∧ Forall (λ later : Node, center later ≠ point) l2.
Proof.
  induction l as [|last l IH] using rev_ind; intros Hlook.
  - unfold index_nodes in Hlook. cbn [fold_left] in Hlook.
    by rewrite lookup_empty in Hlook.
  - rewrite index_nodes_snoc in Hlook.
    destruct (decide (center last = point)) as [Heq|Hne].
    + rewrite <- Heq, lookup_insert_eq in Hlook. injection Hlook as <-.
      exists l, []. by split_and!.
    + rewrite lookup_insert_ne in Hlook by done.
      destruct (IH Hlook) as (l1 & l2 & -> & Hc & Hlater).
      exists l1, (l2 ++ [last]). split_and!.
      * by rewrite <- app_assoc.
      * done.
      * apply Forall_app. split; [done|]. by apply Forall_singleton.
Qed.

(** In a chain of distinct objects, a node is the entry of its own point
    exactly when no later node is at that point. *)
Lemma index_nodes_own_entry (pre post : list Node) (node : Node) :
  NoDup (pre ++ node :: post) →
  index_nodes ∅ (pre ++ node :: post) !! center node = Some node
  ↔ Forall (λ later : Node, center later ≠ center node) post.
Proof.
  intros Hnd. split; [|apply index_nodes_lookup_last].
  intros Hlook.
  destruct (index_nodes_lookup_inv _ _ _ Hlook) as (l1 & l2 & Hsplit & _ & Hlater).
  assert (Hlen : length pre = length l1).
  { apply (NoDup_lookup (pre ++ node :: post) _ _ node Hnd).
    - by apply list_lookup_middle.
    - rewrite Hsplit. by apply list_lookup_middle. }
  apply app_inj_1 in Hsplit as [_ Htail]; [|done].
  by injection Htail as ->.
Qed.

(** C4, as amended: for a list [P] of [n >= 1] points,
    [from_control_points(P)] returns a road with [node_count() == n]
    whose [control_points()] are [P] in order; every node of it is a
    simple node, and [point_to_node] maps the node's point to a simple
    node of the chain at that point. That entry is the node itself
    exactly when no later node of the chain is at the same point, hence
    for every node when no point occurs twice in [P]. The nodes are new
    objects, pairwise distinct, and each was told [added_to(road)], in
    order. *)
Theorem from_control_points_spec (cls : string) (P : list Point) (e : Env Point) :
  P ≠ [] →
  ∃ (r : RoadT) (e' : Env Point),
    from_control_points cls P e = (Ok r, e') ∧
    node_count r = Z.of_nat (length P) ∧
    control_points r = P ∧
    (∀ node : Node,
       node ∈ _nodes r →
       node_kind node = SimpleNode ∧
       ∃ node' : Node,
         _point_to_node r !! center node = Some node' ∧
         node' ∈ _nodes r ∧
         node_kind node' = SimpleNode ∧
         center node' = center node) ∧
    (NoDup P →
     ∀ node : Node, node ∈ _nodes r → _point_to_node r !! center node = Some node) ∧
    NoDup (map node_id (_nodes r)) ∧
    calls e' = calls e ++ map AddedTo (_nodes r) ∧
    (∀ (pre post : list Node) (node : Node),
       _nodes r = pre ++ node :: post →
       _point_to_node r !! center node = Some node
       ↔ Forall (λ later : Node, center later ≠ center node) post).
Proof.
  intros _. unfold from_control_points.
  pose proof (add_control_points_run P (mkWorld (Road_init cls) e)) as Hrun.
  unfold add_control_points in Hrun. rewrite Hrun. clear Hrun.
  cbn [self env Road_init road_class _nodes _point_to_node _lanes mbind
       result_bind app].
  eexists _, _. split; [reflexivity|].
  unfold node_count, control_points. cbn [_nodes _point_to_node].
  split_and!.
  - by rewrite <- (length_map center), fresh_nodes_centers.
  - apply fresh_nodes_centers.
  - intros node Hin. split; [by eapply fresh_nodes_simple|].
    destruct (index_nodes_lookup ∅ _ node Hin) as (node' & Hlook & Hin' & Hc).
    exists node'. split_and!; try done. by eapply fresh_nodes_simple.
  - intros Hnd node Hin. apply index_nodes_lookup_NoDup; [|done].
    by rewrite fresh_nodes_centers.
  - rewrite fresh_nodes_ids. apply NoDup_seq.
  - reflexivity.
  - intros pre post node Hsplit. rewrite Hsplit.
    apply index_nodes_own_entry. rewrite <- Hsplit.
    apply (NoDup_fmap_1 node_id). rewrite <- map_is_fmap, fresh_nodes_ids.
    apply NoDup_seq.
Qed.

End Construction.

(** ** Concrete roads *)

Section OnTheGrid.
Import Grid.

Lemma grid_lt_strict_order : strict_order_lt Z.
Proof.
  split.
  - intros a. apply Z.ltb_irrefl.
  - intros a b c Hab Hbc. apply Z.ltb_lt in Hab, Hbc. apply Z.ltb_lt. lia.
Qed.

(** Three collinear points lose the middle one at [angle = 0]; with a
    crossing in the middle all three stay; a bend is kept. *)
Example trim_straight :
  _nodes (self (trim_redundant_nodes 0 straight).2)
  = [simple 0 0 0; simple 2 10 0].
Proof. reflexivity. Qed.

Example trim_through_crossing :
  _nodes (self (trim_redundant_nodes 0 through_crossing).2)
  = [simple 0 0 0; crossing 1 5 0; simple 2 10 0].
Proof. reflexivity. Qed.

Example trim_bend :
  _nodes (self (trim_redundant_nodes 0 bend).2)
  = [simple 0 0 0; simple 2 10 0; simple 4 10 10].
Proof. reflexivity. Qed.

(** A single node comes out twice. *)
Example trim_one_node :
  trim_redundant_nodes 0 one_node
  = (Ok tt, world_of [simple 0 0 0; simple 0 0 0]).
Proof. reflexivity. Qed.

Example distances_two_lanes :
  control_points_distances two_lanes = [5; 6].
Proof. reflexivity. Qed.

Example width_two_lanes : width two_lanes = Ok 9.
Proof. reflexivity. Qed.

Lemma trim_redundant_nodes_spec_witness :
  3 ≤ node_count (self bend) ∧
  trim_redundant_nodes 0 bend
  = (Ok tt, with_nodes bend (trimmed_chain 0 (_nodes (self bend)))).
Proof.
  split; [by vm_compute|].
  apply (trim_redundant_nodes_spec 0 bend). by vm_compute.
Defined.

(** C2 as stated fails on the empty road: the method raises. *)
Lemma trim_redundant_nodes_noop_counterexample :
  node_count (self no_nodes) < 3 ∧
  trim_redundant_nodes 0 no_nodes = (Raise IndexError, no_nodes) ∧
  (trim_redundant_nodes 0 no_nodes).1 ≠ Ok tt.
Proof. split_and!; [by vm_compute|reflexivity|discriminate]. Qed.

Lemma trim_redundant_nodes_short_witness :
  (node_count (self two_nodes) = 2 ∧
   trim_redundant_nodes 0 two_nodes = (Ok tt, two_nodes)) ∧
  (node_count (self no_nodes) = 0 ∧
   trim_redundant_nodes 0 no_nodes = (Raise IndexError, no_nodes)).
Proof.
  split; (split; [reflexivity|]).
  - apply (proj1 (trim_redundant_nodes_short 0 two_nodes)). reflexivity.
  - apply (proj2 (trim_redundant_nodes_short 0 no_nodes)). reflexivity.
Defined.

Lemma control_points_distances_spec_witness :
  (node_count (self one_node) = 1 ∧
   control_points_distances (self one_node) = [0]) ∧
  (node_count two_lanes ≠ 1 ∧
   Z.of_nat (length (control_points_distances two_lanes)) = 2 ∧
   control_points_distances two_lanes !! 1%nat = Some (distance_to (3, 4) (3, 10))).
Proof.
  split.
  - split; [reflexivity|].
    exact (proj1 (control_points_distances_spec (self one_node)) eq_refl).
  - assert (Hne : node_count two_lanes ≠ 1) by (by vm_compute).
    destruct (proj2 (control_points_distances_spec two_lanes) Hne) as [Hlen Hat].
    split_and!; [done|exact Hlen|].
    apply (Hat 1%nat); reflexivity.
Defined.

Lemma from_control_points_spec_witness :
  [(0, 0); (5, 0); (0, 0)] ≠ [] ∧
  ∃ r e',
    from_control_points (Lane := Lane) "Road" [(0, 0); (5, 0); (0, 0)] (mkEnv 0 [])
    = (Ok r, e') ∧
    node_count r = 3 ∧
    control_points r = [(0, 0); (5, 0); (0, 0)].
Proof.
  split; [done|].
  destruct (from_control_points_spec (Lane := Lane) "Road"
              [(0, 0); (5, 0); (0, 0)] (mkEnv 0 []) ltac:(done))
    as (r & e' & Hrun & Hcount & Hpoints & _).
  exists r, e'. split_and!; [exact Hrun|exact Hcount|exact Hpoints].
Defined.

(** With a point that occurs twice, the index holds the later node. *)
Example from_control_points_repeated_point :
  (from_control_points (Lane := Lane) "Road" [(0, 0); (5, 0); (0, 0)] (mkEnv 0 [])).1
    ≫= (λ r, Ok (_nodes r, _point_to_node r !! (0, 0)))
  = Ok ([simple 0 0 0; simple 1 5 0; simple 2 0 0], Some (simple 2 0 0)).
Proof. vm_compute. reflexivity. Qed.

(** C4 as stated fails when a point occurs twice: the first node, at
    (0, 0), is not the node the index holds for (0, 0). *)
Lemma from_control_points_index_counterexample :
  [(0, 0); (5, 0); (0, 0)] ≠ [] ∧
  (from_control_points (Lane := Lane) "Road" [(0, 0); (5, 0); (0, 0)] (mkEnv 0 [])).1
    ≫= (λ r, Ok (_nodes r !! 0%nat,
                 (_nodes r !! 0%nat) ≫= (λ node, _point_to_node r !! center node)))
  = Ok (Some (simple 0 0 0), Some (simple 2 0 0)) ∧
  simple 2 0 0 ≠ simple 0 0 0.
Proof. split_and!; [done|by vm_compute|discriminate]. Qed.

(** C5 as stated fails on a road without lanes: the exception is
    [ValueError]. *)
Lemma width_no_lanes_counterexample :
  lane_count empty_road = 0 ∧
  width empty_road = Raise ValueError ∧
  width empty_road ≠ Raise NoLanesError.
Proof. split_and!; [reflexivity|reflexivity|discriminate]. Qed.

Lemma width_spec_witness :
  (lane_count empty_road = 0 ∧ width empty_road = Raise ValueError) ∧
  (1 ≤ lane_count two_lanes ∧ strict_order_lt Z ∧
   ∃ lo hi : Z,
     width two_lanes = Ok (Z.abs lo + Z.abs hi) ∧
     ∀ x, x ∈ map external_offset (lanes two_lanes) →
          (x <? lo) = false ∧ (hi <? x) = false).
Proof.
  split.
  - split; [reflexivity|]. apply (proj1 (width_spec empty_road)). reflexivity.
  - assert (Hsome : 1 ≤ lane_count two_lanes) by (by vm_compute).
    split_and!; [exact Hsome|exact grid_lt_strict_order|].
    destruct (proj2 (width_spec two_lanes) Hsome)
      as (lo & hi & _ & _ & Hwidth & _ & _ & Hbounds).
    exists lo, hi. split; [exact Hwidth|exact (Hbounds grid_lt_strict_order)].
Defined.

(** C6 as stated fails on two roads of class Road without lanes. *)
Lemma Road_eq_no_lanes_counterexample :
  lane_count empty_road = 0 ∧
  Road_eq node_eq empty_road empty_road = Raise ValueError ∧
  ¬ returns (Road_eq node_eq empty_road empty_road).
Proof.
  split_and!; [reflexivity|reflexivity|]. intros [b Hb]. discriminate.
Qed.

Lemma Road_eq_no_lanes_witness :
  lane_count empty_road = 0 ∧
  Road_eq node_eq empty_road empty_road = Raise ValueError ∧
  Road_eq node_eq empty_road (mkRoad "Street" [] ∅ []) = Ok false.
Proof.
  split_and!; [reflexivity| |].
  - apply (proj1 (Road_eq_no_lanes node_eq empty_road empty_road eq_refl eq_refl)).
    reflexivity.
  - apply (proj2 (Road_eq_no_lanes node_eq empty_road (mkRoad "Street" [] ∅ [])
                    eq_refl eq_refl)).
    discriminate.
Defined.

(** C7 as stated fails when no node is at the point: the exception is
    [TypeError]. *)
Lemma replace_node_at_missing_counterexample :
  Forall (λ node : RoadNode Point, center node ≠ (9, 9)) (_nodes (self doubled)) ∧
  replace_node_at (9, 9) (crossing 7 9 9) doubled = (Raise TypeError, doubled) ∧
  (replace_node_at (9, 9) (crossing 7 9 9) doubled).1 ≠ Raise NodeNotFoundError.
Proof.
  split_and!; [|reflexivity|discriminate].
  repeat constructor; discriminate.
Qed.

Lemma replace_node_at_spec_witness :
  (Forall (λ node : RoadNode Point, center node ≠ (9, 9)) (_nodes (self doubled)) ∧
   replace_node_at (9, 9) (crossing 7 9 9) doubled = (Raise TypeError, doubled)) ∧
  (Exists (λ node : RoadNode Point, center node = (5, 0)) (_nodes (self doubled)) ∧
   ∃ (i : nat) (old_node : RoadNode Point),
     _nodes (self doubled) !! i = Some old_node ∧
     center old_node = (5, 0) ∧
     replace_node_at (5, 0) (crossing 7 5 0) doubled
     = (Ok tt,
        replaced doubled (<[i := crossing 7 5 0]> (_nodes (self doubled)))
                 (crossing 7 5 0) old_node)).
Proof.
  assert (Hnone : Forall (λ node : RoadNode Point, center node ≠ (9, 9))
                         (_nodes (self doubled)))
    by (repeat constructor; discriminate).
  assert (Hsome : Exists (λ node : RoadNode Point, center node = (5, 0))
                         (_nodes (self doubled)))
    by (apply Exists_cons_tl, Exists_cons_hd; reflexivity).
  split; (split; [done|]).
  - exact (proj1 (replace_node_at_spec (9, 9) (crossing 7 9 9) doubled) Hnone).
  - exact (proj2 (replace_node_at_spec (5, 0) (crossing 7 5 0) doubled) Hsome).
Defined.

(** C8 as stated fails on the empty road: the exception is [IndexError]. *)
Lemma first_last_node_empty_counterexample :
  node_count empty_road = 0 ∧
  first_node empty_road = Raise IndexError ∧
  last_node empty_road = Raise IndexError ∧
  first_node empty_road ≠ Raise EmptyRoadError ∧
  last_node empty_road ≠ Raise EmptyRoadError.
Proof. split_and!; [reflexivity|reflexivity|reflexivity|discriminate|discriminate]. Qed.

Lemma first_last_node_empty_witness :
  node_count empty_road = 0 ∧
  first_node empty_road = Raise IndexError ∧
  last_node empty_road = Raise IndexError.
Proof.
  split; [reflexivity|]. apply (first_last_node_empty empty_road). reflexivity.
Defined.

Lemma replace_node_at_first_match_only_witness :
  ∃ w' : World Point Lane,
    replace_node_at (5, 0) (crossing 7 5 0) doubled = (Ok tt, w') ∧
    _nodes (self w') = [simple 0 0 0; crossing 7 5 0; simple 2 5 0].
Proof.
  destruct (replace_node_at_first_match_only (5, 0) (crossing 7 5 0) doubled
              [simple 0 0 0] [simple 2 5 0] (simple 1 5 0))
    as (w' & Hrun & Hnodes & _).
  - reflexivity.
  - repeat constructor; discriminate.
  - reflexivity.
  - apply Exists_cons_hd. reflexivity.
  - exists w'. split; [exact Hrun|exact Hnodes].
Defined.

End OnTheGrid.

(** * More of the class *)

(** ** Positional access *)

Lemma getitem_in_range {A} (l : list A) (i : Z) :
  - Z.of_nat (length l) ≤ i < Z.of_nat (length l) →
  ∃ x, PyList.getitem l i = Ok x
       ∧ l !! Z.to_nat (PyList.normalize l i) = Some x.
Proof.
  intros Hrange. unfold PyList.getitem.
  assert (Hj : 0 ≤ PyList.normalize l i < Z.of_nat (length l)).
  { unfold PyList.normalize. destruct (Z.ltb_spec i 0); lia. }
  destruct (Z.ltb_spec (PyList.normalize l i) 0) as [Hneg|_]; [lia|].
  destruct (Z.leb_spec (Z.of_nat (length l)) (PyList.normalize l i)) as [Hge|_];
    [lia|].
  cbn [orb].
  destruct (lookup_lt_is_Some_2 l (Z.to_nat (PyList.normalize l i))) as [x Hx];
    [lia|].
  exists x. by rewrite Hx.
Qed.

Lemma getitem_out_of_range {A} (l : list A) (i : Z) :
  i < - Z.of_nat (length l) ∨ Z.of_nat (length l) ≤ i →
  PyList.getitem l i = Raise IndexError.
Proof.
  intros Hout. unfold PyList.getitem, PyList.normalize.
  destruct (Z.ltb_spec i 0) as [Hneg|Hpos].
  - destruct (Z.ltb_spec (i + Z.of_nat (length l)) 0) as [_|Hge]; [done|lia].
  - destruct (Z.ltb_spec i 0) as [Hneg|_]; [lia|].
    destruct (Z.leb_spec (Z.of_nat (length l)) i) as [_|Hlt]; [done|lia].
Qed.

Lemma getitem_snoc_last {A} (l : list A) (x : A) :
  PyList.getitem (l ++ [x]) (-1) = Ok x.
Proof.
  destruct l as [|a l].
  - apply (getitem_last [] x).
  - change ((a :: l) ++ [x]) with (a :: (l ++ [x])).
    rewrite getitem_last. by rewrite last_last.
Qed.

Lemma getitem_cons_first {A} (l : list A) (x : A) :
  PyList.getitem (x :: l) 0 = Ok x.
Proof. by apply (getitem_lookup (x :: l) 0%nat). Qed.

Section Positions.
Context {Point Lane : Type} `{Countable Point}.

Local Abbreviation Node := (RoadNode Point).
Local Abbreviation RoadT := (Road Point Lane).
Local Abbreviation WorldT := (World Point Lane).

(** X1: [node_at(index)] returns exactly for [-n <= index < n], [n] the
    number of nodes: the node at position [index], or at [index + n] for a
    negative index. For any other index it raises [IndexError]. *)
Theorem node_at_bounds (r : RoadT) (index : Z) :
  (- node_count r ≤ index < node_count r →
   ∃ node : Node,
     node_at r index = Ok node ∧
     _nodes r !! Z.to_nat (if index <? 0 then index + node_count r else index)
     = Some node) ∧
  (index < - node_count r ∨ node_count r ≤ index →
   node_at r index = Raise IndexError).
Proof.
  unfold node_at, node_count. split.
  - intros Hrange. apply (getitem_in_range (_nodes r) index Hrange).
  - apply getitem_out_of_range.
Qed.

(** X2: [lane_at(index)] follows the same rule over the lanes: a negative
    index counts from the last lane, and an index outside
    [-lane_count() .. lane_count() - 1] raises [IndexError]. *)
Theorem lane_at_bounds (r : RoadT) (index : Z) :
  (- lane_count r ≤ index < lane_count r →
   ∃ lane : Lane,
     lane_at r index = Ok lane ∧
     _lanes r !! Z.to_nat (if index <? 0 then index + lane_count r else index)
     = Some lane) ∧
  (index < - lane_count r ∨ lane_count r ≤ index →
   lane_at r index = Raise IndexError).
Proof.
  unfold lane_at, lane_count. split.
  - intros Hrange. apply (getitem_in_range (_lanes r) index Hrange).
  - apply getitem_out_of_range.
Qed.

Lemma first_node_rev (l : list Node) :
  PyList.getitem (rev l) 0 = PyList.getitem l (-1).
Proof.
  destruct l as [|x l] using rev_ind.
  - by rewrite !getitem_nil.
  - rewrite rev_unit, getitem_snoc_last. apply getitem_cons_first.
Qed.

Lemma last_node_rev (l : list Node) :
  PyList.getitem (rev l) (-1) = PyList.getitem l 0.
Proof.
  rewrite <- (rev_involutive l) at 2. by rewrite first_node_rev.
Qed.

(** X3: [reverse()] swaps the ends and reverses the control points:
    afterwards [first_node()] is what [last_node()] was and the other way
    round (on an empty road both raise [IndexError], before and after),
    and the number of nodes, the lanes and the point index are as
    before. *)
Theorem reverse_swaps_ends (w : WorldT) :
  ∃ w' : WorldT,
    reverse w = (Ok tt, w') ∧
    first_node (self w') = last_node (self w) ∧
    last_node (self w') = first_node (self w) ∧
    control_points (self w') = rev (control_points (self w)) ∧
    node_count (self w') = node_count (self w) ∧
    _lanes (self w') = _lanes (self w) ∧
    _point_to_node (self w') = _point_to_node (self w) ∧
    env w' = env w.
Proof.
  eexists. split; [apply reverse_run|].
  unfold first_node, last_node, control_points, node_count.
  cbn [self _nodes _lanes _point_to_node env].
  split_and!; try reflexivity.
  - apply first_node_rev.
  - apply last_node_rev.
  - by rewrite map_rev.
  - by rewrite length_rev.
Qed.

End Positions.

(** ** Distances along the chain *)

Section Distances.
Context {Point Num Lane : Type} `{Countable Point}.
Context `{!Number Num} `{!PointOps Point Num}.

Local Abbreviation Node := (RoadNode Point).
Local Abbreviation RoadT := (Road Point Lane).
Local Abbreviation WorldT := (World Point Lane).

(** The distances between neighbours, without the case of one point. *)
Lemma steps_cons (x y : Point) (l : list Point) :
  map (λ pp : Point * Point, distance_to pp.1 pp.2)
      (zip (x :: y :: l) (drop 1 (x :: y :: l)))
  = distance_to x y
    :: map (λ pp : Point * Point, distance_to pp.1 pp.2)
           (zip (y :: l) (drop 1 (y :: l))).
Proof. reflexivity. Qed.

Lemma steps_snoc (l : list Point) (y x : Point) :
  map (λ pp : Point * Point, distance_to pp.1 pp.2)
      (zip (l ++ [y; x]) (drop 1 (l ++ [y; x])))
  = map (λ pp : Point * Point, distance_to pp.1 pp.2)
        (zip (l ++ [y]) (drop 1 (l ++ [y])))
    ++ [distance_to y x].
Proof.
  induction l as [|a l IH]; [reflexivity|].
  destruct l as [|b l].
  - reflexivity.
  - change ((a :: b :: l) ++ [y; x]) with (a :: b :: (l ++ [y; x])).
    change ((a :: b :: l) ++ [y]) with (a :: b :: (l ++ [y])).
    rewrite !steps_cons.
    change (b :: (l ++ [y; x])) with ((b :: l) ++ [y; x]).
    change (b :: (l ++ [y])) with ((b :: l) ++ [y]).
    by rewrite IH.
Qed.

Lemma steps_rev (l : list Point) :
  (∀ p q : Point, distance_to p q = distance_to q p) →
  map (λ pp : Point * Point, distance_to pp.1 pp.2)
      (zip (rev l) (drop 1 (rev l)))
  = rev (map (λ pp : Point * Point, distance_to pp.1 pp.2)
             (zip l (drop 1 l))).
Proof.
  intros Hsym. induction l as [|x l IH]; [reflexivity|].
  destruct l as [|y l]; [reflexivity|].
  rewrite steps_cons.
  change (rev (x :: y :: l)) with ((rev l ++ [y]) ++ [x]).
  rewrite <- app_assoc. change ([y] ++ [x]) with [y; x].
  rewrite steps_snoc.
  change (rev l ++ [y]) with (rev (y :: l)).
  rewrite IH. cbn [rev]. by rewrite (Hsym x y).
Qed.

(** X4: when the distance of two points does not depend on their order,
    [control_points_distances()] after [reverse()] is the former list of
    distances, reversed (on a road with one point it is [[0.0]] both
    times). *)
Theorem reverse_control_points_distances (w : WorldT) :
  (∀ p q : Point, distance_to p q = distance_to q p) →
  control_points_distances (self (reverse w).2)
  = rev (control_points_distances (self w)).
Proof.
  intros Hsym. rewrite reverse_run. cbn [snd self].
  unfold control_points_distances, control_points. cbn [_nodes].
  rewrite map_rev, length_rev.
  destruct (Z.of_nat (length (map center (_nodes (self w)))) =? 1); [reflexivity|].
  by apply steps_rev.
Qed.

End Distances.

(** ** What replacing and trimming keep *)

Section Keeps.
Context {Point Num Lane : Type} `{Countable Point}.
Context `{!Number Num} `{!PointOps Point Num}.

Local Abbreviation Node := (RoadNode Point).
Local Abbreviation RoadT := (Road Point Lane).
Local Abbreviation WorldT := (World Point Lane).

(** X5: when some node is at [point], [replace_node_at(point, new_node)]
    returns and keeps the number of nodes, the lanes and the point index
    (which still holds what it held for [point]); when [new_node] is at
    [point] too, the control points are the same as before. *)
Theorem replace_node_at_keeps (point : Point) (new_node : Node) (w : WorldT) :
  Exists (λ node : Node, center node = point) (_nodes (self w)) →
  ∃ w' : WorldT,
    replace_node_at point new_node w = (Ok tt, w') ∧
    node_count (self w') = node_count (self w) ∧
    _lanes (self w') = _lanes (self w) ∧
    _point_to_node (self w') = _point_to_node (self w) ∧
    next_id (env w') = next_id (env w) ∧
    (center new_node = point →
     control_points (self w') = control_points (self w)).
Proof.
  intros Hsome.
  destruct (split_at_first _ _ Hsome) as (pre & old_node & post & Hnodes & Hpre & Hold).
  eexists. split; [by apply (replace_node_at_first point new_node w pre post old_node)|].
  unfold node_count, control_points.
  cbn [replaced self env _nodes _lanes _point_to_node next_id].
  rewrite Hnodes. split_and!; try reflexivity.
  - by rewrite !length_app.
  - intros Hnew. rewrite !map_app. cbn [map]. by rewrite Hnew, Hold.
Qed.

Lemma kept_interior_sublist (angle : Num) (rest : list Node) (d : Node) :
  ∀ previous_node : Node,
    rest ≠ [] →
    kept_interior angle previous_node rest ++ [List.last rest d]
      `sublist_of` rest.
Proof.
  induction rest as [|current_node rest IH]; intros previous_node Hne; [done|].
  destruct rest as [|following_node rest]; [done|].
  change (List.last (current_node :: following_node :: rest) d)
    with (List.last (following_node :: rest) d).
  cbn [kept_interior].
  destruct (is_intersection current_node || _).
  - cbn [app]. apply sublist_skip. by apply IH.
  - apply sublist_cons. by apply IH.
Qed.

Lemma kept_interior_all_intersections (angle : Num) (interior : list Node)
    (last : Node) :
  ∀ previous_node : Node,
    Forall (λ node : Node, is_intersection node = true) interior →
    kept_interior angle previous_node (interior ++ [last]) = interior.
Proof.
  induction interior as [|current_node interior IH]; intros previous_node Hall;
    [reflexivity|].
  apply Forall_cons in Hall as [Hcur Hall].
  destruct interior as [|following_node interior].
  - cbn [app kept_interior]. by rewrite Hcur.
  - change ((current_node :: following_node :: interior) ++ [last])
      with (current_node :: following_node :: (interior ++ [last])).
    cbn [kept_interior]. rewrite Hcur. cbn [orb]. f_equal.
    by apply (IH current_node).
Qed.

(** X6: on a road with at least two nodes [trim_redundant_nodes(angle)]
    returns, and the new chain is the old one with some nodes left out:
    the order is kept, the first and the last node are the same, and
    between two and the former number of nodes remain. The lanes and the
    point index are untouched and no call is made on any node: a node
    that is dropped is not told [removed_from]. *)
Theorem trim_redundant_nodes_keeps (angle : Num) (w : WorldT) :
  2 ≤ node_count (self w) →
  ∃ w' : WorldT,
    trim_redundant_nodes angle w = (Ok tt, w') ∧
    _nodes (self w') `sublist_of` _nodes (self w) ∧
    first_node (self w') = first_node (self w) ∧
    last_node (self w') = last_node (self w) ∧
    2 ≤ node_count (self w') ≤ node_count (self w) ∧
    _lanes (self w') = _lanes (self w) ∧
    _point_to_node (self w') = _point_to_node (self w) ∧
    env w' = env w.
Proof.
  intros Hlen. unfold node_count in Hlen.
  destruct (_nodes (self w)) as [|first [|second rest]] eqn:Hnodes;
    simpl in Hlen; try lia.
  eexists. split; [by apply (trim_redundant_nodes_cons angle w first (second :: rest))|].
  pose proof (kept_interior_sublist angle (second :: rest) first first ltac:(done))
    as Hsub.
  unfold first_node, last_node, node_count.
  cbn [with_nodes self env _nodes _lanes _point_to_node]. rewrite Hnodes.
  split_and!.
  - by apply sublist_skip.
  - by rewrite !getitem_cons_first.
  - rewrite !getitem_last. by rewrite last_last.
  - cbn [length]. rewrite length_app. simpl. lia.
  - apply sublist_length in Hsub. cbn [length] in *. lia.
  - reflexivity.
  - reflexivity.
  - reflexivity.
Qed.

(** X7: on a road with at least two nodes, every intersection node of the
    chain is still in the chain after [trim_redundant_nodes(angle)],
    whatever [angle] is. *)
Theorem trim_redundant_nodes_keeps_intersections (angle : Num) (w : WorldT)
    (node : Node) :
  2 ≤ node_count (self w) →
  node ∈ _nodes (self w) →
  is_intersection node = true →
  node ∈ _nodes (self (trim_redundant_nodes angle w).2).
Proof.
  intros Hlen Hin Hx. unfold node_count in Hlen.
  destruct (_nodes (self w)) as [|first [|second rest]] eqn:Hnodes;
    simpl in Hlen; try lia.
  rewrite (trim_redundant_nodes_cons angle w first (second :: rest) Hnodes).
  cbn [snd with_nodes self _nodes].
  apply elem_of_cons in Hin as [->|Hin]; [apply list_elem_of_here|].
  apply list_elem_of_further, elem_of_app.
  apply list_elem_of_lookup in Hin as [i Hi].
  pose proof (lookup_lt_Some _ _ _ Hi) as Hlt.
  destruct (decide (S i < length (second :: rest))%nat) as [Hinner|Hend].
  - left. by apply (kept_interior_intersections angle _ first i).
  - right. apply list_elem_of_singleton.
    assert (Hi' : (first :: second :: rest) !! length (second :: rest) = Some node).
    { replace (length (second :: rest)) with (S i) by lia. exact Hi. }
    rewrite lookup_length_last in Hi'. by injection Hi' as <-.
Qed.

(** X8: on a road with at least two nodes, a first node, interior nodes
    and a last node, when every interior node is an intersection,
    [trim_redundant_nodes(angle)] returns and leaves the road as it was,
    whatever [angle] is. *)
Theorem trim_redundant_nodes_all_intersections (angle : Num) (w : WorldT)
    (first last : Node) (interior : list Node) :
  _nodes (self w) = first :: interior ++ [last] →
  Forall (λ node : Node, is_intersection node = true) interior →
  trim_redundant_nodes angle w = (Ok tt, w).
Proof.
  intros Hnodes Hall.
  rewrite (trim_redundant_nodes_cons angle w first (interior ++ [last]) Hnodes).
  rewrite kept_interior_all_intersections by done.
  rewrite last_last. unfold with_nodes. rewrite <- Hnodes.
  by destruct w as [[] ?].
Qed.

End Keeps.

(** ** Building a road and asking for its points *)

Section Building.
Context {Point Num Lane : Type} `{Countable Point}.
Context `{!Number Num} `{!PointOps Point Num} `{!PointApprox Point}.

Local Abbreviation Node := (RoadNode Point).
Local Abbreviation RoadT := (Road Point Lane).
Local Abbreviation WorldT := (World Point Lane).

Lemma from_control_points_run (cls : string) (P : list Point) (e : Env Point) :
  from_control_points (Lane := Lane) cls P e =
  (Ok (mkRoad cls (fresh_nodes (next_id e) P)
              (index_nodes ∅ (fresh_nodes (next_id e) P)) []),
   mkEnv (next_id e + length P)
         (calls e ++ map AddedTo (fresh_nodes (next_id e) P))).
Proof.
  unfold from_control_points.
  pose proof (add_control_points_run (Lane := Lane) P (mkWorld (Road_init cls) e))
    as Hrun.
  unfold add_control_points in Hrun. by rewrite Hrun.
Qed.

Lemma add_nodes_run (l : list Node) :
  ∀ w : WorldT,
    for_each l _add_node w =
    (Ok tt,
     mkWorld
       (mkRoad (road_class (self w)) (_nodes (self w) ++ l)
               (_point_to_node (self w)) (_lanes (self w)))
       (mkEnv (next_id (env w)) (calls (env w) ++ map AddedTo l))).
Proof.
  induction l as [|node l IH]; intros w.
  - simpl. unfold retM. rewrite !app_nil_r. by destruct w as [[] []].
  - cbn [for_each]. unfold bindM at 1.
    change (_add_node node w)
      with (Ok tt,
            mkWorld
              (mkRoad (road_class (self w)) (_nodes (self w) ++ [node])
                      (_point_to_node (self w)) (_lanes (self w)))
              (mkEnv (next_id (env w)) (calls (env w) ++ [AddedTo node]))).
    cbv beta iota. rewrite IH.
    cbn [self env road_class _nodes _point_to_node _lanes next_id calls map].
    by rewrite <- !app_assoc.
Qed.

Lemma includes_indexed_point (r : RoadT) (point : Point) :
  is_Some (_point_to_node r !! point) → includes_control_point r point = true.
Proof.
  intros Hkey. unfold includes_control_point.
  by rewrite bool_decide_eq_true_2.
Qed.

Lemma index_nodes_is_Some (m : gmap Point Node) (l : list Node) (point : Point) :
  point ∈ map center l → is_Some (index_nodes m l !! point).
Proof.
  rewrite map_is_fmap. intros Hin.
  apply list_elem_of_fmap in Hin as (node & -> & Hnode).
  destruct (index_nodes_lookup m l node Hnode) as (node' & Hlook & _).
  by exists node'.
Qed.

(** X9: every point of [P] is a control point of the road
    [from_control_points(P)] for [includes_control_point], and it still
    is after [trim_redundant_nodes(angle)], also when its node was
    dropped from the chain: the point index is not trimmed. *)
Theorem includes_control_point_after_trim (cls : string) (P : list Point)
    (e : Env Point) (angle : Num) (point : Point) :
  point ∈ P →
  ∃ (r : RoadT) (e' : Env Point) (w' : WorldT),
    from_control_points cls P e = (Ok r, e') ∧
    includes_control_point r point = true ∧
    trim_redundant_nodes angle (mkWorld r e') = (Ok tt, w') ∧
    includes_control_point (self w') point = true.
Proof.
  intros Hin. rewrite from_control_points_run.
  assert (Hkey : is_Some (index_nodes ∅ (fresh_nodes (next_id e) P) !! point)).
  { apply index_nodes_is_Some. by rewrite fresh_nodes_centers. }
  destruct P as [|p P]; [by apply elem_of_nil in Hin|].
  eexists _, _, _. split_and!.
  - reflexivity.
  - by apply includes_indexed_point.
  - by apply (trim_redundant_nodes_cons angle _
                (mkNode (next_id e) SimpleNode p) (fresh_nodes (S (next_id e)) P)).
  - by apply includes_indexed_point.
Qed.

(** X10: [from_nodes(nodes)] returns a road whose chain is [nodes] as
    given; it builds no node, tells each node [added_to(road)] in order,
    and leaves the point index empty, so that [includes_control_point]
    on this road is the scan of the chain with [almost_equal_to] alone. *)
Theorem from_nodes_adopts (cls : string) (l : list Node) (e : Env Point) :
  ∃ (r : RoadT) (e' : Env Point),
    from_nodes cls l e = (Ok r, e') ∧
    _nodes r = l ∧
    _point_to_node r = ∅ ∧
    _lanes r = [] ∧
    next_id e' = next_id e ∧
    calls e' = calls e ++ map AddedTo l ∧
    ∀ point : Point,
      includes_control_point r point
      = existsb (λ node : Node, almost_equal_to (center node) point 5) l.
Proof.
  unfold from_nodes. rewrite add_nodes_run.
  cbn [self env Road_init road_class _nodes _point_to_node _lanes next_id calls
       mbind result_bind app].
  eexists _, _. split; [reflexivity|].
  cbn [_nodes _point_to_node _lanes next_id calls].
  split_and!; reflexivity.
Qed.

(** X11: [add_control_point(point)] always returns; it appends one new
    simple node at [point], which is then [last_node()] and the node the
    point index holds for [point] (other keys keep their nodes); the node
    is told [added_to(road)], and [includes_control_point(point)] is
    true afterwards. *)
Theorem add_control_point_appends (point : Point) (w : WorldT) :
  ∃ (node : Node) (w' : WorldT),
    add_control_point point w = (Ok tt, w') ∧
    node = mkNode (next_id (env w)) SimpleNode point ∧
    _nodes (self w') = _nodes (self w) ++ [node] ∧
    node_count (self w') = node_count (self w) + 1 ∧
    last_node (self w') = Ok node ∧
    _point_to_node (self w') !! point = Some node ∧
    (∀ other : Point,
       other ≠ point →
       _point_to_node (self w') !! other = _point_to_node (self w) !! other) ∧
    includes_control_point (self w') point = true ∧
    calls (env w') = calls (env w) ++ [AddedTo node].
Proof.
  eexists _, _. split; [apply add_control_point_run|].
  unfold node_count, last_node.
  cbn [self env _nodes _point_to_node calls].
  split_and!; try reflexivity.
  - rewrite length_app. simpl. lia.
  - apply getitem_snoc_last.
  - apply lookup_insert_eq.
  - intros other Hne. by apply lookup_insert_ne.
  - apply includes_indexed_point. cbn [_point_to_node].
    rewrite lookup_insert_eq. by eexists.
Qed.

(** X12: the distances after [add_control_point(point)]: on an empty road
    they become [[0.0]]; on a road with one node the [[0.0]] gives way to
    the one distance from that node to [point]; on a longer road the
    distance from the former last node to [point] is added at the end. *)
Theorem add_control_point_distances (point : Point) (w : WorldT) :
  (_nodes (self w) = [] →
   control_points_distances (self (add_control_point point w).2) = [float_zero]) ∧
  (∀ only : Node,
     _nodes (self w) = [only] →
     control_points_distances (self (add_control_point point w).2)
     = [distance_to (center only) point]) ∧
  (∀ (l : list Node) (a b : Node),
     _nodes (self w) = l ++ [a; b] →
     control_points_distances (self (add_control_point point w).2)
     = control_points_distances (self w) ++ [distance_to (center b) point]).
Proof.
  rewrite add_control_point_run. cbn [snd self].
  unfold control_points_distances, control_points. cbn [_nodes].
  split_and!.
  - by intros ->.
  - by intros only ->.
  - intros l a b ->.
    rewrite <- app_assoc. cbn [app]. rewrite !map_app. cbn [map].
    rewrite !length_app. cbn [length].
    destruct (Z.eqb_spec (Z.of_nat (length (map center l) + 3)) 1) as [Heq|_]; [lia|].
    destruct (Z.eqb_spec (Z.of_nat (length (map center l) + 2)) 1) as [Heq|_]; [lia|].
    cbn [center].
    change (map center l ++ [center a; center b; point])
      with (map center l ++ [center a] ++ [center b; point]).
    change (map center l ++ [center a; center b])
      with (map center l ++ [center a] ++ [center b]).
    rewrite !app_assoc. by rewrite steps_snoc.
Qed.

Lemma fresh_nodes_last_id (points : list Point) :
  ∀ (start : nat) (d : Node),
    points ≠ [] →
    node_id (List.last (fresh_nodes start points) d)
    = (start + length points - 1)%nat.
Proof.
  induction points as [|p points IH]; intros start d Hne; [done|].
  destruct points as [|q points].
  - simpl. lia.
  - change (List.last (fresh_nodes start (p :: q :: points)) d)
      with (List.last (fresh_nodes (S start) (q :: points)) d).
    rewrite IH by done. simpl. lia.
Qed.

(** X13: the two ends of a road built from two or more points are two
    objects, also when the points are equal: [is_first_node] holds of
    [first_node()] and not of [last_node()], and [is_last_node] holds of
    [last_node()] and not of [first_node()]. *)
Theorem ends_are_distinct_objects (cls : string) (p q : Point) (P : list Point)
    (e : Env Point) :
  ∃ (r : RoadT) (e' : Env Point) (a b : Node),
    from_control_points cls (p :: q :: P) e = (Ok r, e') ∧
    first_node r = Ok a ∧
    last_node r = Ok b ∧
    is_first_node r a = Ok true ∧
    is_last_node r b = Ok true ∧
    is_first_node r b = Ok false ∧
    is_last_node r a = Ok false.
Proof.
  rewrite from_control_points_run.
  change (fresh_nodes (next_id e) (p :: q :: P))
    with (mkNode (next_id e) SimpleNode p :: fresh_nodes (S (next_id e)) (q :: P)).
  remember (mkNode (next_id e) SimpleNode p) as a eqn:Ha.
  remember (fresh_nodes (S (next_id e)) (q :: P)) as rest eqn:Hrest.
  assert (Hb : node_id (List.last rest a) = S (next_id e + length P)).
  { subst rest. rewrite fresh_nodes_last_id by done. simpl. lia. }
  assert (Hida : node_id a = next_id e) by (by subst a).
  eexists _, _, a, (List.last rest a). split; [reflexivity|].
  unfold is_first_node, is_last_node, first_node, last_node.
  cbn [_nodes].
  rewrite getitem_cons_first, getitem_last.
  cbn [mbind result_bind]. unfold same_object. rewrite Hb, Hida.
  split_and!; try reflexivity; f_equal.
  - apply Nat.eqb_refl.
  - apply Nat.eqb_refl.
  - apply Nat.eqb_neq. lia.
  - apply Nat.eqb_neq. lia.
Qed.

End Building.

(** ** Lanes, equality, boxes and sums *)

Lemma map_result_total {A B} (f : A → result B) (g : A → B) (l : list A) :
  (∀ x, f x = Ok (g x)) → map_result f l = Ok (map g l).
Proof.
  intros Hf. induction l as [|x l IH]; [reflexivity|].
  cbn [map_result map]. by rewrite Hf, IH.
Qed.

Lemma clamp_nonneg (n i : Z) : 0 ≤ n → 0 ≤ i → PySlice.clamp n i = Z.min i n.
Proof.
  intros Hn Hi. unfold PySlice.clamp.
  destruct (Z.ltb_spec i 0) as [Hneg|_]; [lia|].
  destruct (Z.ltb_spec i 0) as [Hneg|_]; [lia|].
  destruct (Z.ltb_spec n i); lia.
Qed.

Lemma slice_range {A} (l : list A) (lo hi : Z) :
  0 ≤ lo ≤ hi →
  PySlice.slice l lo (Some hi)
  = take (Z.to_nat (hi - lo)) (drop (Z.to_nat lo) l).
Proof.
  intros Hrange. unfold PySlice.slice.
  rewrite !clamp_nonneg by lia.
  destruct (Z.le_gt_cases hi (Z.of_nat (length l))) as [Hin|Hout].
  - by rewrite !Z.min_l by lia.
  - rewrite (Z.min_r hi) by lia.
    destruct (Z.le_gt_cases lo (Z.of_nat (length l))) as [Hlo|Hlo].
    + rewrite Z.min_l by lia.
      rewrite !take_ge; [done| |]; rewrite length_drop; lia.
    + rewrite Z.min_r by lia. rewrite Z.sub_diag.
      rewrite !drop_ge by lia. by rewrite !take_nil.
Qed.

Lemma slice_from {A} (l : list A) (lo : Z) :
  0 ≤ lo → PySlice.slice l lo None = drop (Z.to_nat lo) l.
Proof.
  intros Hlo. unfold PySlice.slice. rewrite clamp_nonneg by lia.
  destruct (Z.le_gt_cases lo (Z.of_nat (length l))) as [Hin|Hout].
  - rewrite Z.min_l by lia. apply take_ge. rewrite length_drop. lia.
  - rewrite Z.min_r by lia. rewrite Z.sub_diag.
    rewrite !drop_ge by lia. reflexivity.
Qed.

Lemma slice_open_end {A} (l : list A) (lo hi : Z) :
  Z.of_nat (length l) ≤ hi →
  PySlice.slice l lo (Some hi) = PySlice.slice l lo None.
Proof.
  intros Hhi. unfold PySlice.slice.
  replace (PySlice.clamp (Z.of_nat (length l)) hi) with (Z.of_nat (length l));
    [done|].
  unfold PySlice.clamp.
  destruct (Z.ltb_spec hi 0) as [Hneg|_]; [lia|].
  destruct (Z.ltb_spec hi 0) as [Hneg|_]; [lia|].
  destruct (Z.ltb_spec (Z.of_nat (length l)) hi); lia.
Qed.

Section Rest.
Context {Point Num Lane Box : Type} `{Countable Point}.
Context `{!Number Num} `{!PointOps Point Num} `{!LaneOps Lane Num}.
Context `{!LaneNew Lane Num} `{!BoxOps Point Num Box} `{!FSum Num}.
Variable node_eq : RoadNode Point → RoadNode Point → bool.

Local Abbreviation Node := (RoadNode Point).
Local Abbreviation RoadT := (Road Point Lane).
Local Abbreviation WorldT := (World Point Lane).

Lemma nodes_eq_same (l : list Node) : nodes_eq node_eq l l = true.
Proof.
  unfold nodes_eq. rewrite Nat.eqb_refl.
  induction l as [|a l IH]; [reflexivity|].
  cbn [nodes_eq_items]. by rewrite Nat.eqb_refl.
Qed.

(** X14: a road whose [width()] returns a number equal to itself is
    [==] to itself and not [!=], whatever [RoadNode.__eq__] answers: a
    list holding the same objects is equal to itself. *)
Theorem Road_eq_reflexive (r : RoadT) (w : Num) :
  width r = Ok w →
  num_eq w w = true →
  Road_eq node_eq r r = Ok true ∧ Road_ne node_eq r r = Ok false.
Proof.
  intros Hw Hrefl.
  assert (Heq : Road_eq node_eq r r = Ok true).
  { unfold Road_eq. rewrite bool_decide_eq_true_2 by done.
    rewrite Hw. cbn [mbind result_bind]. rewrite Hrefl.
    by rewrite nodes_eq_same. }
  split; [done|]. unfold Road_ne. by rewrite Heq.
Qed.

(** X15: [==] on two roads raises exactly when they are of the same class
    and one of them has no lane, and what it raises then is
    [ValueError]. *)
Theorem Road_eq_raises_iff (r other : RoadT) (e : exn) :
  Road_eq node_eq r other = Raise e ↔
  e = ValueError ∧ road_class r = road_class other
  ∧ (lane_count r = 0 ∨ lane_count other = 0).
Proof.
  unfold Road_eq. split.
  - destruct (decide (road_class r = road_class other)) as [Hcls|Hcls].
    2:{ by rewrite bool_decide_eq_false_2. }
    rewrite bool_decide_eq_true_2 by done.
    destruct (decide (lane_count r = 0)) as [Hr|Hr].
    { rewrite (width_no_lanes r Hr). intros [= <-]. by split_and!; [| |left]. }
    destruct (width_some_lanes r) as (? & ? & _ & _ & -> & _);
      [unfold lane_count in *; lia|].
    destruct (decide (lane_count other = 0)) as [Ho|Ho].
    { rewrite (width_no_lanes other Ho). intros [= <-]. by split_and!; [| |right]. }
    destruct (width_some_lanes other) as (? & ? & _ & _ & -> & _);
      [unfold lane_count in *; lia|].
    cbn [mbind result_bind]. by destruct (num_eq _ _).
  - intros (-> & Hcls & Hnone).
    rewrite bool_decide_eq_true_2 by done.
    destruct (width r) as [w|e] eqn:Hw.
    + destruct Hnone as [Hr|Ho].
      * by rewrite (width_no_lanes r Hr) in Hw.
      * by rewrite (width_no_lanes other Ho).
    + by rewrite (width_raises_only_ValueError r e Hw).
Qed.

(** X16: the boxes of the nodes. On a road without nodes
    [_node_bounding_boxes()] is the empty list, lanes or no lanes: the
    width is asked for once per node. On a road with a node and no lane
    it raises [ValueError], and so does [bounding_box()]. When [width()]
    returns [w], there is one box per node, in order, each
    [node.bounding_box(w)], and [bounding_box()] is [from_boxes] of
    them. *)
Theorem node_bounding_boxes_spec (r : RoadT) :
  (_nodes r = [] → _node_bounding_boxes r = Ok []) ∧
  (_nodes r ≠ [] → lane_count r = 0 →
   _node_bounding_boxes r = Raise ValueError ∧
   bounding_box r = Raise ValueError) ∧
  (∀ w : Num,
     width r = Ok w →
     _node_bounding_boxes r
     = Ok (map (λ node : Node, node_bounding_box node w) (_nodes r)) ∧
     bounding_box r
     = from_boxes (map (λ node : Node, node_bounding_box node w) (_nodes r))).
Proof.
  unfold bounding_box, _node_bounding_boxes. split_and!.
  - by intros ->.
  - intros Hne Hnone. destruct (_nodes r) as [|node l]; [done|].
    cbn [map_result]. by rewrite (width_no_lanes r Hnone).
  - intros w Hw.
    rewrite (map_result_total _ (λ node : Node, node_bounding_box node w)).
    + done.
    + intros node. by rewrite Hw.
Qed.

(** X17: [sum_control_points_distances] with its defaults is [fsum] of
    all the distances; from a position [initial >= 0] it sums the
    distances from that position on; with [0 <= initial <= final] it sums
    at most [final - initial] of them, from position [initial]; and a
    [final] at or past the end is the same as no [final]. *)
Theorem sum_control_points_distances_ranges (r : RoadT) :
  sum_control_points_distances r 0 None = fsum (control_points_distances r) ∧
  (∀ initial : Z,
     0 ≤ initial →
     sum_control_points_distances r initial None
     = fsum (drop (Z.to_nat initial) (control_points_distances r))) ∧
  (∀ initial final : Z,
     0 ≤ initial ≤ final →
     sum_control_points_distances r initial (Some final)
     = fsum (take (Z.to_nat (final - initial))
                  (drop (Z.to_nat initial) (control_points_distances r)))) ∧
  (∀ initial final : Z,
     Z.of_nat (length (control_points_distances r)) ≤ final →
     sum_control_points_distances r initial (Some final)
     = sum_control_points_distances r initial None).
Proof.
  unfold sum_control_points_distances. split_and!.
  - by rewrite slice_from.
  - intros initial Hi. by rewrite slice_from.
  - intros initial final Hrange. by rewrite slice_range.
  - intros initial final Hfinal. by rewrite slice_open_end.
Qed.

(** X18: [add_lane(offset, width, reversed)] always returns; the new lane
    is the last one ([lane_at(-1)]), the lanes before it keep their
    positions, nothing else of the road changes, and [width()] returns
    afterwards. *)
Theorem add_lane_appends (offset lane_width : Num) (reversed : bool) (w : WorldT) :
  ∃ w' : WorldT,
    add_lane offset lane_width reversed w = (Ok tt, w') ∧
    _lanes (self w') = _lanes (self w) ++ [Lane_new lane_width offset reversed] ∧
    lane_count (self w') = lane_count (self w) + 1 ∧
    lane_at (self w') (-1) = Ok (Lane_new lane_width offset reversed) ∧
    (∀ (i : nat) (lane : Lane),
       _lanes (self w) !! i = Some lane →
       lane_at (self w') (Z.of_nat i) = Ok lane) ∧
    returns (width (self w')) ∧
    _nodes (self w') = _nodes (self w) ∧
    _point_to_node (self w') = _point_to_node (self w) ∧
    env w' = env w.
Proof.
  eexists. split; [reflexivity|].
  unfold lane_count, lane_at. cbn [self env _lanes _nodes _point_to_node].
  split_and!; try reflexivity.
  - rewrite length_app. simpl. lia.
  - apply getitem_snoc_last.
  - intros i lane Hi. apply getitem_lookup. by apply lookup_app_l_Some.
  - match goal with |- returns (width ?r') =>
      destruct (width_some_lanes r') as (lo & hi & _ & _ & Hw & _)
    end.
    + unfold lane_count. cbn [_lanes]. rewrite length_app. simpl. lia.
    + by eexists.
Qed.

End Rest.

(** ** More concrete roads *)

Section OnTheGridAgain.
Import Grid.

Lemma grid_distance_symmetric (p q : Point) : distance_to p q = distance_to q p.
Proof.
  destruct p as [px py], q as [qx qy]. cbn [distance_to points fst snd].
  f_equal. lia.
Qed.

Example reverse_bend_distances :
  control_points_distances (self bend) = [5; 5; 5; 5] ∧
  control_points_distances (self two_lanes_world) = [5; 6] ∧
  control_points_distances (self (reverse two_lanes_world).2) = [6; 5].
Proof. split_and!; reflexivity. Qed.

Example bounding_box_two_lanes :
  bounding_box two_lanes = Ok ((-4, -4), (7, 14)) ∧
  bounding_box nodes_only = Raise ValueError ∧
  _node_bounding_boxes (Box := Box) empty_road = Ok [].
Proof. split_and!; reflexivity. Qed.

Example sum_two_lanes :
  sum_control_points_distances two_lanes 0 None = 11 ∧
  sum_control_points_distances two_lanes 1 None = 6 ∧
  sum_control_points_distances two_lanes 0 (Some 1) = 5 ∧
  sum_control_points_distances two_lanes 0 (Some (-1)) = 5 ∧
  sum_control_points_distances two_lanes (-1) (Some 7) = 6.
Proof. split_and!; reflexivity. Qed.

Lemma reverse_control_points_distances_witness :
  (∀ p q : Point, distance_to p q = distance_to q p) ∧
  control_points_distances (self (reverse two_lanes_world).2)
  = rev (control_points_distances (self two_lanes_world)).
Proof.
  split; [exact grid_distance_symmetric|].
  exact (reverse_control_points_distances two_lanes_world grid_distance_symmetric).
Defined.

Lemma replace_node_at_keeps_witness :
  Exists (λ node : RoadNode Point, center node = (5, 0)) (_nodes (self doubled)) ∧
  ∃ w' : World Point Lane,
    replace_node_at (5, 0) (crossing 7 5 0) doubled = (Ok tt, w') ∧
    node_count (self w') = node_count (self doubled) ∧
    control_points (self w') = control_points (self doubled).
Proof.
  assert (Hsome : Exists (λ node : RoadNode Point, center node = (5, 0))
                         (_nodes (self doubled)))
    by (apply Exists_cons_tl, Exists_cons_hd; reflexivity).
  split; [exact Hsome|].
  destruct (replace_node_at_keeps (5, 0) (crossing 7 5 0) doubled Hsome)
    as (w' & Hrun & Hcount & _ & _ & _ & Hpoints).
  exists w'. split_and!; [exact Hrun|exact Hcount|exact (Hpoints eq_refl)].
Defined.

Lemma trim_redundant_nodes_keeps_witness :
  2 ≤ node_count (self bend) ∧
  ∃ w' : World Point Lane,
    trim_redundant_nodes 0 bend = (Ok tt, w') ∧
    _nodes (self w') `sublist_of` _nodes (self bend) ∧
    2 ≤ node_count (self w') ≤ node_count (self bend).
Proof.
  assert (Hlen : 2 ≤ node_count (self bend)) by (by vm_compute).
  split; [exact Hlen|].
  destruct (trim_redundant_nodes_keeps 0 bend Hlen)
    as (w' & Hrun & Hsub & _ & _ & Hcount & _).
  exists w'. split_and!; [exact Hrun|exact Hsub|exact (proj1 Hcount)|exact (proj2 Hcount)].
Defined.

Lemma trim_redundant_nodes_keeps_intersections_witness :
  2 ≤ node_count (self through_crossing) ∧
  crossing 1 5 0 ∈ _nodes (self through_crossing) ∧
  crossing 1 5 0 ∈ _nodes (self (trim_redundant_nodes 0 through_crossing).2).
Proof.
  assert (Hlen : 2 ≤ node_count (self through_crossing)) by (by vm_compute).
  assert (Hin : crossing 1 5 0 ∈ _nodes (self through_crossing))
    by (apply list_elem_of_further, list_elem_of_here).
  split_and!; [exact Hlen|exact Hin|].
  exact (trim_redundant_nodes_keeps_intersections 0 through_crossing
           (crossing 1 5 0) Hlen Hin eq_refl).
Defined.

Lemma trim_redundant_nodes_all_intersections_witness :
  trim_redundant_nodes 0 through_crossing = (Ok tt, through_crossing).
Proof.
  apply (trim_redundant_nodes_all_intersections 0 through_crossing
           (simple 0 0 0) (simple 2 10 0) [crossing 1 5 0]).
  - reflexivity.
  - apply Forall_cons. split; [reflexivity|apply Forall_nil_2].
Defined.

Lemma includes_control_point_after_trim_witness :
  (5, 0) ∈ [(0, 0); (5, 0); (10, 0)] ∧
  ∃ (r : Road Point Lane) (e' : Env Point) (w' : World Point Lane),
    from_control_points "Road" [(0, 0); (5, 0); (10, 0)] (mkEnv 0 []) = (Ok r, e') ∧
    includes_control_point r (5, 0) = true ∧
    trim_redundant_nodes 0 (mkWorld r e') = (Ok tt, w') ∧
    includes_control_point (self w') (5, 0) = true.
Proof.
  assert (Hin : (5, 0) ∈ [(0, 0); (5, 0); (10, 0)])
    by (apply list_elem_of_further, list_elem_of_here).
  split; [exact Hin|].
  exact (includes_control_point_after_trim (Lane := Lane) "Road"
           [(0, 0); (5, 0); (10, 0)] (mkEnv 0 []) 0 (5, 0) Hin).
Defined.

(** The node at (5, 0) is dropped by the trimming, and the point is
    still reported. *)
Example includes_dropped_point :
  (from_control_points (Lane := Lane) "Road" [(0, 0); (5, 0); (10, 0)] (mkEnv 0 [])).1
    ≫= (λ r,
          let w' := (trim_redundant_nodes 0 (mkWorld r (mkEnv 3 []))).2 in
          Ok (control_points (self w'), includes_control_point (self w') (5, 0)))
  = Ok ([(0, 0); (10, 0)], true).
Proof. vm_compute. reflexivity. Qed.

Lemma Road_eq_reflexive_witness :
  width two_lanes = Ok 9 ∧
  num_eq 9 9 = true ∧
  Road_eq (λ _ _, false) two_lanes two_lanes = Ok true ∧
  Road_ne (λ _ _, false) two_lanes two_lanes = Ok false.
Proof.
  split_and!; [reflexivity|reflexivity| |].
  - exact (proj1 (Road_eq_reflexive (λ _ _, false) two_lanes 9 eq_refl eq_refl)).
  - exact (proj2 (Road_eq_reflexive (λ _ _, false) two_lanes 9 eq_refl eq_refl)).
Defined.

End OnTheGridAgain.
